(** * ChessGame: a shallow embedding of the rules engine

    The engine is the class [ChessGame] (positions, moves, the board as an
    array of arrays of one-letter strings, castling rights as a [Set] of
    letters, a move log and a redo stack).  Every method of the class is
    translated below under its own name.

    Conventions of the embedding.
    - Numbers are integers ([Z]); rows and columns are never fractional in a
      caller of the engine.
    - Strings are ASCII strings.  [toLowerCase], [toUpperCase] and the
      regular expressions [/[A-Z]/], [/[a-z]/] are translated for ASCII
      letters; string comparison is the lexicographic order on character
      codes, as in JavaScript.
    - The board is a list of rows.  A read outside the lists yields the
      placeholder [undefinedCell] and a write outside them does nothing; in
      JavaScript the first raises a [TypeError] (missing row) or yields
      [undefined] (missing column) and the second grows the array.  The
      statements of the specification are made for boards that satisfy
      [wf_board] (eight rows of eight cells), on which every access the
      engine performs behind an [isInBounds] test is inside the lists; the
      commands keep that shape when [move] is called from a square of the
      board.  The one access that the engine performs without any test is
      the read of the from-square in [move]: a call whose from-square is
      not an element of the lists is not followed, and [move] is [None]
      for it.  (In JavaScript that read throws when the row is missing;
      when only the column is missing it yields [undefined], and the call
      returns null for a destination off the board and otherwise goes on,
      writing [undefined] on the destination and the empty marker outside
      the row.)
    - [Set] objects are mutable and shared: [undo] stores the very object
      that a logged move carries into [this.castlingRights].  Sets therefore
      live in a store ([heap]) and are named by their index. *)

From stdpp Require Import gmap strings list pretty.
From Stdlib Require Import Ascii ZArith Lia.

Open Scope string_scope.
Open Scope list_scope.
Open Scope Z_scope.

(** ** JavaScript strings (ASCII fragment) *)

Module JsString.

Definition code (c : ascii) : N := N_of_ascii c.

Definition isUpperChar (c : ascii) : bool :=
  ((65 <=? code c) && (code c <=? 90))%N.

Definition isLowerChar (c : ascii) : bool :=
  ((97 <=? code c) && (code c <=? 122))%N.

Definition isDigitChar (c : ascii) : bool :=
  ((48 <=? code c) && (code c <=? 57))%N.

(** The ASCII characters that [Number] and [parseInt] treat as white
    space: TAB, LF, VT, FF, CR and the space. *)
Definition isSpaceChar (c : ascii) : bool :=
  ((9 <=? code c) && (code c <=? 13) || (code c =? 32))%N.

Definition lowerChar (c : ascii) : ascii :=
  if isUpperChar c then ascii_of_N (code c + 32) else c.

Definition upperChar (c : ascii) : ascii :=
  if isLowerChar c then ascii_of_N (code c - 32) else c.

Fixpoint mapChars (f : ascii -> ascii) (s : string) : string :=
  match s with
  | EmptyString => EmptyString
  | String c s' => String (f c) (mapChars f s')
  end.

Fixpoint existsChar (p : ascii -> bool) (s : string) : bool :=
  match s with
  | EmptyString => false
  | String c s' => p c || existsChar p s'
  end.

Definition toLowerCase : string -> string := mapChars lowerChar.
Definition toUpperCase : string -> string := mapChars upperChar.

(** [a <= b] on strings. *)
Definition le (a b : string) : bool := String.leb a b.

(** [s.split(sep)] for a one-character separator. *)
Fixpoint splitAcc (sep : ascii) (cur : string) (s : string) : list string :=
  match s with
  | EmptyString => [cur]
  | String c s' =>
      if Ascii.eqb c sep then cur :: splitAcc sep EmptyString s'
      else splitAcc sep (String.append cur (String c EmptyString)) s'
  end.

Definition split (sep : ascii) (s : string) : list string :=
  splitAcc sep EmptyString s.

(** [s.split("")]: the list of the characters, each as a string. *)
Fixpoint chars (s : string) : list string :=
  match s with
  | EmptyString => []
  | String c s' => String c EmptyString :: chars s'
  end.

Fixpoint dropSpaces (s : string) : string :=
  match s with
  | String c s' => if isSpaceChar c then dropSpaces s' else s
  | EmptyString => EmptyString
  end.

Definition digitValue (c : ascii) : Z := Z.of_N (code c) - 48.

(** The longest prefix of decimal digits, read as a number; [None] when
    there is no digit at the front. *)
Fixpoint digitsAcc (acc : option Z) (s : string) : option Z :=
  match s with
  | String c s' =>
      if isDigitChar c
      then digitsAcc (Some (10 * default 0 acc + digitValue c)) s'
      else acc
  | EmptyString => acc
  end.

(** [parseInt(s, 10)]; [None] stands for [NaN]. *)
Definition parseInt (s : string) : option Z :=
  match dropSpaces s with
  | String "-" s' => Z.opp <$> digitsAcc None s'
  | String "+" s' => digitsAcc None s'
  | s' => digitsAcc None s'
  end.

(** The decimal numeral of a one-digit count, as [fen += empty] appends
    it (the count of empty squares in a row of eight is at most 8). *)
Definition digitString (n : nat) : string :=
  String (ascii_of_nat (48 + n)) EmptyString.

End JsString.

(** ** Data model *)

Record Position := mkPos { row : Z; col : Z }.

#[global] Instance Position_eq_dec : EqDecision Position.
Proof. solve_decision. Defined.

Definition samePos (p q : Position) : bool :=
  (row p =? row q) && (col p =? col q).

Inductive Color := White | Black.

#[global] Instance Color_eq_dec : EqDecision Color.
Proof. solve_decision. Defined.

Definition opposite (c : Color) : Color :=
  match c with White => Black | Black => White end.

(** A reference to a [Set<string>] object in the store. *)
Abbreviation SetRef := nat.

(** [Move]: [captured] is optional in the interface; [move] always fills
    it (with ["."] for a quiet move). *)
Record Move := mkMove {
  from : Position;
  to : Position;
  piece : string;
  captured : option string;
  castlingRightsBefore : SetRef
}.

#[global] Instance Move_eq_dec : EqDecision Move.
Proof. solve_decision. Defined.

Abbreviation Board := (list (list string)).

Record ChessGame := mkGame {
  board : Board;
  lastMove : option Move;
  moveLog : list Move;
  redoStack : list Move;
  castlingRights : SetRef;
  heap : list (gset string);
  history : list (Move * string);
  halfMoveClock : Z;
  fullMoveNumber : Z;
  isCheck : bool;
  checkKingPosition : option Position;
  isCheckmate : bool;
  isStalemate : bool;
  isDraw : bool;
  gameOver : bool;
  winner : option Color
}.

(** Field assignments [this.f = v]. *)
Definition set_board (b : Board) (g : ChessGame) : ChessGame :=
  mkGame b (lastMove g) (moveLog g) (redoStack g) (castlingRights g) (heap g)
    (history g) (halfMoveClock g) (fullMoveNumber g) (isCheck g)
    (checkKingPosition g) (isCheckmate g) (isStalemate g) (isDraw g)
    (gameOver g) (winner g).

Definition set_lastMove (m : option Move) (g : ChessGame) : ChessGame :=
  mkGame (board g) m (moveLog g) (redoStack g) (castlingRights g) (heap g)
    (history g) (halfMoveClock g) (fullMoveNumber g) (isCheck g)
    (checkKingPosition g) (isCheckmate g) (isStalemate g) (isDraw g)
    (gameOver g) (winner g).

Definition set_moveLog (l : list Move) (g : ChessGame) : ChessGame :=
  mkGame (board g) (lastMove g) l (redoStack g) (castlingRights g) (heap g)
    (history g) (halfMoveClock g) (fullMoveNumber g) (isCheck g)
    (checkKingPosition g) (isCheckmate g) (isStalemate g) (isDraw g)
    (gameOver g) (winner g).

Definition set_redoStack (l : list Move) (g : ChessGame) : ChessGame :=
  mkGame (board g) (lastMove g) (moveLog g) l (castlingRights g) (heap g)
    (history g) (halfMoveClock g) (fullMoveNumber g) (isCheck g)
    (checkKingPosition g) (isCheckmate g) (isStalemate g) (isDraw g)
    (gameOver g) (winner g).

Definition set_castlingRights (r : SetRef) (g : ChessGame) : ChessGame :=
  mkGame (board g) (lastMove g) (moveLog g) (redoStack g) r (heap g)
    (history g) (halfMoveClock g) (fullMoveNumber g) (isCheck g)
    (checkKingPosition g) (isCheckmate g) (isStalemate g) (isDraw g)
    (gameOver g) (winner g).

Definition set_heap (h : list (gset string)) (g : ChessGame) : ChessGame :=
  mkGame (board g) (lastMove g) (moveLog g) (redoStack g) (castlingRights g) h
    (history g) (halfMoveClock g) (fullMoveNumber g) (isCheck g)
    (checkKingPosition g) (isCheckmate g) (isStalemate g) (isDraw g)
    (gameOver g) (winner g).

Definition set_check (chk : bool) (kp : option Position) (g : ChessGame)
  : ChessGame :=
  mkGame (board g) (lastMove g) (moveLog g) (redoStack g) (castlingRights g)
    (heap g) (history g) (halfMoveClock g) (fullMoveNumber g) chk kp
    (isCheckmate g) (isStalemate g) (isDraw g) (gameOver g) (winner g).

(** [this.isCheckmate = true; this.gameOver = true; this.winner = w]. *)
Definition set_checkmate (w : Color) (g : ChessGame) : ChessGame :=
  mkGame (board g) (lastMove g) (moveLog g) (redoStack g) (castlingRights g)
    (heap g) (history g) (halfMoveClock g) (fullMoveNumber g) (isCheck g)
    (checkKingPosition g) true (isStalemate g) (isDraw g) true (Some w).

(** [this.isStalemate = true; this.gameOver = true]. *)
Definition set_stalemate (g : ChessGame) : ChessGame :=
  mkGame (board g) (lastMove g) (moveLog g) (redoStack g) (castlingRights g)
    (heap g) (history g) (halfMoveClock g) (fullMoveNumber g) (isCheck g)
    (checkKingPosition g) (isCheckmate g) true (isDraw g) true (winner g).

(** [this.isDraw = true; this.gameOver = true]. *)
Definition set_draw (g : ChessGame) : ChessGame :=
  mkGame (board g) (lastMove g) (moveLog g) (redoStack g) (castlingRights g)
    (heap g) (history g) (halfMoveClock g) (fullMoveNumber g) (isCheck g)
    (checkKingPosition g) (isCheckmate g) (isStalemate g) true true (winner g).

(** ** The board as an array of arrays *)

(** What stands for [undefined] when a read falls outside the lists. *)
Definition undefinedCell : string := "".

(** [board[r][c]], when that element exists. *)
Definition lookupCell (b : Board) (r c : Z) : option string :=
  if (0 <=? r) && (0 <=? c)
  then b !! Z.to_nat r ≫= (.!! Z.to_nat c)
  else None.

Definition cellAt (b : Board) (r c : Z) : string :=
  default undefinedCell (lookupCell b r c).

(** [board[r][c] = v]. *)
Definition setCell (b : Board) (r c : Z) (v : string) : Board :=
  if (0 <=? r) && (0 <=? c)
  then alter (<[Z.to_nat c := v]>) (Z.to_nat r) b
  else b.

Definition wf_board (b : Board) : Prop :=
  length b = 8%nat ∧ Forall (λ r, length r = 8%nat) b.

Definition isInBounds (r c : Z) : bool :=
  (0 <=? r) && (r <? 8) && (0 <=? c) && (c <? 8).

Definition isWhitePiece (cell : string) : bool :=
  JsString.existsChar JsString.isUpperChar cell.

Definition isBlackPiece (cell : string) : bool :=
  JsString.existsChar JsString.isLowerChar cell.

(** [piece >= 'A' && piece <= 'Z']. *)
Definition betweenAZ (p : string) : bool :=
  JsString.le "A" p && JsString.le p "Z".

(** The current contents of [this.castlingRights]. *)
Definition rightsOf (g : ChessGame) : gset string :=
  default ∅ (heap g !! castlingRights g).

Definition hasRight (g : ChessGame) (r : string) : bool :=
  bool_decide (r ∈ rightsOf g).

(** [this.castlingRights.delete(r)]: the object is updated in place. *)
Definition deleteRight (r : string) (g : ChessGame) : ChessGame :=
  set_heap (alter (λ s, s ∖ {[r]}) (castlingRights g) (heap g)) g.

(** [a === b] on strings. *)
Definition eqs (a b : string) : bool := String.eqb a b.

(** The squares in the order of the loops [for r ... for c ...]. *)
Definition range8 : list Z := [0; 1; 2; 3; 4; 5; 6; 7].

Definition squares : list Position :=
  flat_map (λ r, map (λ c, mkPos r c) range8) range8.

(** ** Queries that only read the state *)

Definition isEnpassantMove (g : ChessGame) (fromP toP : Position)
    (lastMove : Move) : bool :=
  let piece' := cellAt (board g) (row fromP) (col fromP) in
  let isWhite := eqs piece' "P" in
  if negb (eqs piece' "p" || isWhite) then false else
  let direction := if isWhite then -1 else 1 in
  if negb (Z.abs (col fromP - col toP) =? 1)
     || negb (row toP - row fromP =? direction)
  then false else
  let opponentPawn := if isWhite then "p" else "P" in
  eqs (piece lastMove) opponentPawn
  && (Z.abs (row (from lastMove) - row (to lastMove)) =? 2)
  && (row (to lastMove) =? row fromP)
  && (col (to lastMove) =? col toP).

Definition knightOffsets : list (Z * Z) :=
  [(-2, -1); (-2, 1); (-1, -2); (-1, 2); (1, -2); (1, 2); (2, -1); (2, 1)].

Definition kingOffsets : list (Z * Z) :=
  [(-1, -1); (-1, 0); (-1, 1); (0, -1); (0, 1); (1, -1); (1, 0); (1, 1)].

Definition rookDirections : list (Z * Z) :=
  [(-1, 0); (1, 0); (0, -1); (0, 1)].

Definition bishopDirections : list (Z * Z) :=
  [(-1, -1); (-1, 1); (1, -1); (1, 1)].

(** The [while (this.isInBounds(row, col))] loop of [isSquareAttacked] for
    one direction; [isRookDirection] is [i < 4].  A ray that stays on the
    board has at most seven squares, the callers give fuel 8. *)
Fixpoint attackRay (fuel : nat) (b : Board) (byColor : Color)
    (isRookDirection : bool) (r c dr dc : Z) : bool :=
  match fuel with
  | O => false
  | S fuel' =>
      if isInBounds r c then
        let piece' := cellAt b r c in
        if negb (eqs piece' ".") then
          (if byColor is White then isWhitePiece piece' else isBlackPiece piece')
          && (eqs piece' (if byColor is White then "Q" else "q")
              || isRookDirection
                 && eqs piece' (if byColor is White then "R" else "r")
              || negb isRookDirection
                 && eqs piece' (if byColor is White then "B" else "b"))
        else attackRay fuel' b byColor isRookDirection (r + dr) (c + dc) dr dc
      else false
  end.

Definition isSquareAttacked (g : ChessGame) (pos : Position) (byColor : Color)
  : bool :=
  let b := board g in
  let pawnDirection := if byColor is White then 1 else -1 in
  let opponentPawn := if byColor is White then "P" else "p" in
  let opponentKnight := if byColor is White then "N" else "n" in
  let opponentKing := if byColor is White then "K" else "k" in
  let stands (what : string) (r c : Z) :=
    isInBounds r c && eqs (cellAt b r c) what in
  existsb (λ dc, stands opponentPawn (row pos + pawnDirection) (col pos + dc))
    [-1; 1]
  || existsb (λ '(dr, dc), stands opponentKnight (row pos + dr) (col pos + dc))
       knightOffsets
  || existsb (λ '(dr, dc),
       attackRay 8 b byColor true (row pos + dr) (col pos + dc) dr dc)
       rookDirections
  || existsb (λ '(dr, dc),
       attackRay 8 b byColor false (row pos + dr) (col pos + dc) dr dc)
       bishopDirections
  || existsb (λ '(dr, dc), stands opponentKing (row pos + dr) (col pos + dc))
       kingOffsets.

Definition getLeapingMoves (g : ChessGame) (pos : Position)
    (offsets : list (Z * Z)) : list Position :=
  let piece' := cellAt (board g) (row pos) (col pos) in
  let isWhite := isWhitePiece piece' in
  flat_map (λ '(dr, dc),
    let r := row pos + dr in
    let c := col pos + dc in
    if isInBounds r c then
      let target := cellAt (board g) r c in
      if eqs target "."
         || (if isWhite then isBlackPiece target else isWhitePiece target)
      then [mkPos r c] else []
    else []) offsets.

(** The [while] loop of [getSlidingMoves] for one direction. *)
Fixpoint slideRay (fuel : nat) (b : Board) (isWhite : bool) (r c dr dc : Z)
  : list Position :=
  match fuel with
  | O => []
  | S fuel' =>
      if isInBounds r c then
        let target := cellAt b r c in
        if eqs target "." then
          mkPos r c :: slideRay fuel' b isWhite (r + dr) (c + dc) dr dc
        else if (if isWhite then isBlackPiece target else isWhitePiece target)
        then [mkPos r c] else []
      else []
  end.

Definition getSlidingMoves (g : ChessGame) (pos : Position)
    (directions : list (Z * Z)) : list Position :=
  let piece' := cellAt (board g) (row pos) (col pos) in
  let isWhite := isWhitePiece piece' in
  flat_map (λ '(dr, dc),
    slideRay 8 (board g) isWhite (row pos + dr) (col pos + dc) dr dc)
    directions.

Definition getValidRookMoves (g : ChessGame) (pos : Position) : list Position :=
  getSlidingMoves g pos rookDirections.

Definition getValidBishopMoves (g : ChessGame) (pos : Position)
  : list Position :=
  getSlidingMoves g pos bishopDirections.

Definition getValidQueenMoves (g : ChessGame) (pos : Position)
  : list Position :=
  getValidRookMoves g pos ++ getValidBishopMoves g pos.

Definition getValidKnightMoves (g : ChessGame) (pos : Position)
  : list Position :=
  getLeapingMoves g pos knightOffsets.

Definition getValidKingMoves (g : ChessGame) (pos : Position) : list Position :=
  let moves := getLeapingMoves g pos kingOffsets in
  let piece' := cellAt (board g) (row pos) (col pos) in
  let isWhite := isWhitePiece piece' in
  let kingRow := if isWhite then 7 else 0 in
  let opponentColor := if isWhite then Black else White in
  if negb (row pos =? kingRow) || negb (col pos =? 4)
     || isSquareAttacked g pos opponentColor
  then moves else
  let kingsideRight := if isWhite then "K" else "k" in
  let moves1 :=
    if hasRight g kingsideRight
       && eqs (cellAt (board g) kingRow 5) "."
       && eqs (cellAt (board g) kingRow 6) "."
       && negb (isSquareAttacked g (mkPos kingRow 5) opponentColor)
       && negb (isSquareAttacked g (mkPos kingRow 6) opponentColor)
    then moves ++ [mkPos kingRow 6] else moves in
  let queensideRight := if isWhite then "Q" else "q" in
  if hasRight g queensideRight
     && eqs (cellAt (board g) kingRow 1) "."
     && eqs (cellAt (board g) kingRow 2) "."
     && eqs (cellAt (board g) kingRow 3) "."
     && negb (isSquareAttacked g (mkPos kingRow 2) opponentColor)
     && negb (isSquareAttacked g (mkPos kingRow 3) opponentColor)
  then moves1 ++ [mkPos kingRow 2] else moves1.

(** The en passant loop shared by the two pawn generators:
    [if (row === r0 && this.lastMove) for (dc of [-1, 1]) ...]. *)
Definition enPassantTargets (g : ChessGame) (r c : Z) (r0 fwd : Z)
  : list Position :=
  match lastMove g with
  | Some lm =>
      if r =? r0 then
        flat_map (λ dc,
          let target := mkPos (r + fwd) (c + dc) in
          if isInBounds (row target) (col target)
             && isEnpassantMove g (mkPos r c) target lm
          then [target] else []) [-1; 1]
      else []
  | None => []
  end.

Definition getValidWhitePawnMoves (g : ChessGame) (pos : Position)
  : list Position :=
  let r := row pos in
  let c := col pos in
  let b := board g in
  (if isInBounds (r - 1) c && eqs (cellAt b (r - 1) c) "." then
     mkPos (r - 1) c ::
     (if (r =? 6) && eqs (cellAt b (r - 2) c) "." then [mkPos (r - 2) c]
      else [])
   else [])
  ++ flat_map (λ dc,
       let newRow := r - 1 in
       let newCol := c + dc in
       if isInBounds newRow newCol && isBlackPiece (cellAt b newRow newCol)
       then [mkPos newRow newCol] else []) [-1; 1]
  ++ enPassantTargets g r c 3 (-1).

Definition getValidBlackPawnMoves (g : ChessGame) (pos : Position)
  : list Position :=
  let r := row pos in
  let c := col pos in
  let b := board g in
  (if isInBounds (r + 1) c && eqs (cellAt b (r + 1) c) "." then
     mkPos (r + 1) c ::
     (if (r =? 1) && eqs (cellAt b (r + 2) c) "." then [mkPos (r + 2) c]
      else [])
   else [])
  ++ flat_map (λ dc,
       let newRow := r + 1 in
       let newCol := c + dc in
       if isInBounds newRow newCol && isWhitePiece (cellAt b newRow newCol)
       then [mkPos newRow newCol] else []) [-1; 1]
  ++ enPassantTargets g r c 4 1.

(** The [switch (piece)] of [getValidMoves]: the moves of the piece on
    [pos] by its movement pattern, before the own-king filter.  This is what
    [getValidMoves(pos, true)] returns. *)
Definition patternMoves (g : ChessGame) (pos : Position) : list Position :=
  let piece' := cellAt (board g) (row pos) (col pos) in
  if eqs piece' "P" then getValidWhitePawnMoves g pos
  else if eqs piece' "p" then getValidBlackPawnMoves g pos
  else if eqs piece' "R" || eqs piece' "r" then getValidRookMoves g pos
  else if eqs piece' "B" || eqs piece' "b" then getValidBishopMoves g pos
  else if eqs piece' "Q" || eqs piece' "q" then getValidQueenMoves g pos
  else if eqs piece' "N" || eqs piece' "n" then getValidKnightMoves g pos
  else if eqs piece' "K" || eqs piece' "k" then getValidKingMoves g pos
  else [].

Definition findKing (g : ChessGame) (color : Color) : option Position :=
  let kingPiece := if color is White then "K" else "k" in
  find (λ p, eqs (cellAt (board g) (row p) (col p)) kingPiece) squares.

(** [getPieces(color)]: the pieces of one colour with their squares. *)
Definition getPieces (g : ChessGame) (color : Color)
  : list (string * Position) :=
  let isWhite := bool_decide (color = White) in
  flat_map (λ p,
    let piece' := cellAt (board g) (row p) (col p) in
    if negb (eqs piece' ".") then
      let pieceIsWhite := betweenAZ piece' in
      if isWhite && pieceIsWhite || negb isWhite && negb pieceIsWhite
      then [(piece', p)] else []
    else []) squares.

(** [isKingInCheck(kingColor)]; the inner call is
    [getValidMoves(piecePos, true)], which returns [patternMoves]. *)
Definition isKingInCheck (g : ChessGame) (kingColor : Color) : bool :=
  match findKing g kingColor with
  | None => false
  | Some kingPos =>
      existsb (λ pp,
        existsb (λ m, (row m =? row kingPos) && (col m =? col kingPos))
          (patternMoves g pp.2))
        (getPieces g (opposite kingColor))
  end.

(** ** The legal-move query

    [getValidMoves] filters by trying each destination on the live board and
    putting the two squares back; the board is threaded through the calls of
    the filter callback as the source mutates it. *)

Definition tryMove (pos : Position) (piece' : string) (toP : Position)
    (g : ChessGame) : bool * ChessGame :=
  let kingColor := if betweenAZ piece' then White else Black in
  let originalPieceAtTo := cellAt (board g) (row toP) (col toP) in
  let g1 := set_board (setCell (board g) (row pos) (col pos) ".") g in
  let g2 := set_board (setCell (board g1) (row toP) (col toP) piece') g1 in
  let leavesKingInCheck := isKingInCheck g2 kingColor in
  let g3 := set_board (setCell (board g2) (row pos) (col pos) piece') g2 in
  let g4 :=
    set_board (setCell (board g3) (row toP) (col toP) originalPieceAtTo) g3 in
  (negb leavesKingInCheck, g4).

(** [xs.filter(f)] for a callback that mutates the state. *)
Fixpoint filterSt {A} (f : A → ChessGame → bool * ChessGame) (xs : list A)
    (g : ChessGame) : list A * ChessGame :=
  match xs with
  | [] => ([], g)
  | x :: xs' =>
      let '(keep, g1) := f x g in
      let '(rest, g2) := filterSt f xs' g1 in
      (if keep then x :: rest else rest, g2)
  end.

Definition getValidMoves (pos : Position) (forAttackCheck : bool)
    (g : ChessGame) : list Position * ChessGame :=
  let piece' := cellAt (board g) (row pos) (col pos) in
  let moves := patternMoves g pos in
  if forAttackCheck then (moves, g)
  else filterSt (tryMove pos piece') moves g.

(** [getAllValidMoves(kingColor)].  The records it builds are only counted
    by the caller; they are kept as (from, to, piece) and the empty
    [castlingRightsBefore] set that each one receives is not allocated. *)
Fixpoint collectMoves (pieces : list (string * Position)) (g : ChessGame)
  : list (Position * Position * string) * ChessGame :=
  match pieces with
  | [] => ([], g)
  | (_, pos) :: rest =>
      let '(moves, g1) := getValidMoves pos false g in
      let these :=
        map (λ t, (pos, t, cellAt (board g1) (row pos) (col pos))) moves in
      let '(others, g2) := collectMoves rest g1 in
      (these ++ others, g2)
  end.

Definition getAllValidMoves (kingColor : Color) (g : ChessGame)
  : list (Position * Position * string) * ChessGame :=
  collectMoves (getPieces g kingColor) g.

(** ** End-of-game tests *)

(** [xs.sort()] on strings: the order is [<=] on character codes. *)
Fixpoint insertSorted (x : string) (xs : list string) : list string :=
  match xs with
  | [] => [x]
  | y :: ys => if JsString.le x y then x :: xs else y :: insertSorted x ys
  end.

Definition sortStrings (xs : list string) : list string :=
  foldr insertSorted [] xs.

Definition join (xs : list string) : string :=
  foldr String.append "" xs.

Definition isInsufficientMaterial (g : ChessGame) : bool :=
  let pieces := getPieces g White ++ getPieces g Black in
  let pieceChars :=
    join (sortStrings (map (λ p, JsString.toLowerCase p.1) pieces)) in
  if eqs pieceChars "k" then true
  else if eqs pieceChars "kn" || eqs pieceChars "kkn" then true
  else if eqs pieceChars "bk" || eqs pieceChars "bkk" then true
  else if eqs pieceChars "bbkk" then
    match filter (λ p, JsString.toLowerCase p.1 = "b") pieces with
    | b0 :: b1 :: _ =>
        let squareColor1 := Z.rem (row b0.2 + col b0.2) 2 in
        let squareColor2 := Z.rem (row b1.2 + col b1.2) 2 in
        squareColor1 =? squareColor2
    | _ => false
    end
  else false.

(** One row of [boardToFen]: the inner [for (j ...)] loop and the flush of
    the pending count after it. *)
Fixpoint fenOfRow (cells : list string) (empty : nat) (fen : string) : string :=
  let flush := if (0 <? empty)%nat
               then String.append fen (JsString.digitString empty) else fen in
  match cells with
  | [] => flush
  | piece' :: rest =>
      if eqs piece' "." then fenOfRow rest (S empty) fen
      else fenOfRow rest 0 (String.append flush piece')
  end.

Definition boardToFen (g : ChessGame) : string :=
  let fen :=
    foldl (λ fen i,
      let fen1 := fenOfRow (map (λ j, cellAt (board g) i j) range8) 0 fen in
      if i <? 7 then String.append fen1 "/" else fen1) "" range8 in
  default "" (head (JsString.split " " fen)).

Definition isThreefoldRepetition (g : ChessGame) : bool :=
  let fen := boardToFen g in
  let count := length (filter (λ h, h.2 = fen) (history g)) in
  (2 <=? count)%nat.

Definition updateGameState (g : ChessGame) : ChessGame :=
  let turn := if (length (moveLog g) mod 2 =? 0)%nat then White else Black in
  let kingColor := turn in
  let chk := isKingInCheck g kingColor in
  let g1 := set_check chk (if chk then findKing g kingColor else None) g in
  let '(allMoves, g2) := getAllValidMoves kingColor g1 in
  let hasValidMoves := (0 <? length allMoves)%nat in
  if isCheck g2 && negb hasValidMoves then
    set_checkmate (opposite turn) g2
  else if negb (isCheck g2) && negb hasValidMoves then
    set_stalemate g2
  else if isInsufficientMaterial g2 || isThreefoldRepetition g2
          || (100 <=? halfMoveClock g2) then
    set_draw g2
  else g2.

(** ** Commands *)

(** The value [{captured, castling}] that [move] returns. *)
Record MoveResult := mkResult { capturedFlag : bool; castlingFlag : bool }.

(** [!!s] for a string. *)
Definition truthy (s : string) : bool := negb (eqs s "").

(** [if (c) { ... }] around a state update. *)
Definition when (c : bool) (f : ChessGame → ChessGame) (g : ChessGame)
  : ChessGame := if c then f g else g.

Definition write (r c : Z) (v : string) (g : ChessGame) : ChessGame :=
  set_board (setCell (board g) r c v) g.

(** [new Set(s)]: a fresh object in the store. *)
Definition newSet (s : gset string) (g : ChessGame) : SetRef * ChessGame :=
  (length (heap g), set_heap (heap g ++ [s]) g).

(** The rook's part of castling in [move] and [redo]. *)
Definition castleRook (rookRow toCol : Z) (g : ChessGame) : ChessGame :=
  if toCol =? 6 then
    write rookRow 7 "." (write rookRow 5 (cellAt (board g) rookRow 7) g)
  else if toCol =? 2 then
    write rookRow 0 "." (write rookRow 3 (cellAt (board g) rookRow 0) g)
  else g.

(** The rook's part of castling in [undo]. *)
Definition uncastleRook (rookRow toCol : Z) (g : ChessGame) : ChessGame :=
  if toCol =? 6 then
    write rookRow 5 "." (write rookRow 7 (cellAt (board g) rookRow 5) g)
  else if toCol =? 2 then
    write rookRow 3 "." (write rookRow 0 (cellAt (board g) rookRow 3) g)
  else g.

Definition at_ (p : Position) (r c : Z) : bool := (row p =? r) && (col p =? c).

(** [move(from, to, promotionPiece)], for a from-square that is an element
    of the arrays.  The outer [None] stands for the calls that are not
    followed: the from-square is not an element of the arrays (no row, where
    the read [this.board[from.row][from.col]] throws, or no such column in
    the row, where it yields [undefined] and the source carries on).  The
    inner [None] is the [null] result. *)
Definition move (fromP toP : Position) (promotionPiece : option string)
    (g : ChessGame) : option (option MoveResult * ChessGame) :=
  piece' ← lookupCell (board g) (row fromP) (col fromP);
  if eqs piece' "." || negb (isInBounds (row toP) (col toP))
  then Some (None, g) else
  let '(rightsBefore, g) := newSet (rightsOf g) g in
  let captured' := cellAt (board g) (row toP) (col toP) in
  let isWhitePawn := eqs piece' "P" in
  let isBlackPawn := eqs piece' "p" in
  let enPassant :=
    (isWhitePawn || isBlackPawn)
    && match lastMove g with
       | Some lm => isEnpassantMove g fromP toP lm
       | None => false
       end in
  let capturedRow := if isWhitePawn then row toP + 1 else row toP - 1 in
  let actualCaptured :=
    if enPassant then cellAt (board g) capturedRow (col toP) else captured' in
  let g := when enPassant (write capturedRow (col toP) ".") g in
  let isPromotion :=
    isWhitePawn && (row toP =? 0) || isBlackPawn && (row toP =? 7) in
  let pieceToPlace :=
    if isPromotion then
      let promoteTo :=
        JsString.toLowerCase
          (match promotionPiece with
           | Some s => if truthy s then s else "q"
           | None => "q"
           end) in
      if isWhitePawn then JsString.toUpperCase promoteTo else promoteTo
    else piece' in
  let g := write (row toP) (col toP) pieceToPlace g in
  let g := write (row fromP) (col fromP) "." g in
  let isCastling :=
    (eqs piece' "K" || eqs piece' "k")
    && (Z.abs (col fromP - col toP) =? 2) in
  let g := when isCastling (castleRook (row fromP) (col toP)) g in
  let g :=
    if eqs piece' "K" then deleteRight "Q" (deleteRight "K" g)
    else if eqs piece' "k" then deleteRight "q" (deleteRight "k" g)
    else g in
  let g := when (eqs piece' "R" && at_ fromP 7 0) (deleteRight "Q") g in
  let g := when (eqs piece' "R" && at_ fromP 7 7) (deleteRight "K") g in
  let g := when (eqs piece' "r" && at_ fromP 0 0) (deleteRight "q") g in
  let g := when (eqs piece' "r" && at_ fromP 0 7) (deleteRight "k") g in
  let g := when (eqs actualCaptured "R" && at_ toP 7 0) (deleteRight "Q") g in
  let g := when (eqs actualCaptured "R" && at_ toP 7 7) (deleteRight "K") g in
  let g := when (eqs actualCaptured "r" && at_ toP 0 0) (deleteRight "q") g in
  let g := when (eqs actualCaptured "r" && at_ toP 0 7) (deleteRight "k") g in
  let mv := mkMove fromP toP piece' (Some actualCaptured) rightsBefore in
  let g := set_lastMove (Some mv) g in
  let g := set_moveLog (moveLog g ++ [mv]) g in
  let g := set_redoStack [] g in
  let g := updateGameState g in
  Some (Some (mkResult (truthy actualCaptured) isCastling), g).

(** [captured && captured !== "."] on the optional field of a move. *)
Definition realCapture (c : option string) : bool :=
  match c with
  | Some s => truthy s && negb (eqs s ".")
  | None => false
  end.

Definition undo (g : ChessGame) : ChessGame :=
  match last (moveLog g) with
  | None => g
  | Some lastM =>
      let g := set_moveLog (removelast (moveLog g)) g in
      let fromP := from lastM in
      let toP := to lastM in
      let piece' := piece lastM in
      let g := write (row fromP) (col fromP) piece' g in
      let g := write (row toP) (col toP) "." g in
      let isCastling :=
        (eqs piece' "K" || eqs piece' "k")
        && (Z.abs (col fromP - col toP) =? 2) in
      let g := when isCastling (uncastleRook (row fromP) (col toP)) g in
      let g :=
        if realCapture (captured lastM) then
          let c := default "" (captured lastM) in
          if eqs piece' "P" && (row fromP =? 3) && (row toP =? 2)
             && (Z.abs (col fromP - col toP) =? 1)
             && eqs (cellAt (board g) (row toP) (col toP)) "."
             || eqs piece' "p" && (row fromP =? 4) && (row toP =? 5)
                && (Z.abs (col fromP - col toP) =? 1)
                && eqs (cellAt (board g) (row toP) (col toP)) "."
          then
            let capturedRow :=
              if eqs piece' "P" then row toP + 1 else row toP - 1 in
            write capturedRow (col toP) c g
          else write (row toP) (col toP) c g
        else g in
      let g := set_castlingRights (castlingRightsBefore lastM) g in
      let g := set_redoStack (redoStack g ++ [lastM]) g in
      set_lastMove (last (moveLog g)) g
  end.

Definition redo (g : ChessGame) : ChessGame :=
  match last (redoStack g) with
  | None => g
  | Some mv =>
      let g := set_redoStack (removelast (redoStack g)) g in
      let fromP := from mv in
      let toP := to mv in
      let piece' := piece mv in
      let cap := captured mv in
      let enPassant :=
        (eqs piece' "P" || eqs piece' "p")
        && match lastMove g with
           | Some lm => isEnpassantMove g fromP toP lm
           | None => false
           end
        && realCapture cap in
      let capturedRow := if eqs piece' "P" then row toP + 1 else row toP - 1 in
      let g := when enPassant (write capturedRow (col toP) ".") g in
      let g := write (row toP) (col toP) piece' g in
      let g := write (row fromP) (col fromP) "." g in
      let isCastling :=
        (eqs piece' "K" || eqs piece' "k")
        && (Z.abs (col fromP - col toP) =? 2) in
      let g := when isCastling (castleRook (row fromP) (col toP)) g in
      let g :=
        if eqs piece' "K" then deleteRight "Q" (deleteRight "K" g)
        else if eqs piece' "k" then deleteRight "q" (deleteRight "k" g)
        else g in
      let capIs (s : string) := bool_decide (cap = Some s) in
      let g :=
        if eqs piece' "R" || capIs "R" then
          let g :=
            when (at_ fromP 7 0 || at_ toP 7 0) (deleteRight "Q") g in
          when (at_ fromP 7 7 || at_ toP 7 7) (deleteRight "K") g
        else g in
      let g :=
        if eqs piece' "r" || capIs "r" then
          let g :=
            when (at_ fromP 0 0 || at_ toP 0 0) (deleteRight "q") g in
          when (at_ fromP 0 7 || at_ toP 0 7) (deleteRight "k") g
        else g in
      let g := set_moveLog (moveLog g ++ [mv]) g in
      set_lastMove (Some mv) g
  end.

(** ** Construction from a FEN string *)

(** [Number(char)] for one character; [None] is [NaN]. *)
Definition numberOfChar (c : ascii) : option nat :=
  if JsString.isDigitChar c then Some (Z.to_nat (JsString.digitValue c))
  else if JsString.isSpaceChar c then Some 0%nat
  else None.

Fixpoint fenRowToCells (r : string) : list string :=
  match r with
  | EmptyString => []
  | String c r' =>
      match numberOfChar c with
      | None => String c EmptyString :: fenRowToCells r'
      | Some n => replicate n "." ++ fenRowToCells r'
      end
  end.

Definition fenToBoard (fenBoard : string) : Board :=
  map fenRowToCells (JsString.split "/" fenBoard).

(** [parseInt(s, 10) || d] on a field that may be missing. *)
Definition intOr (d : Z) (field : option string) : Z :=
  match field ≫= JsString.parseInt with
  | Some n => if n =? 0 then d else n
  | None => d
  end.

(** [new ChessGame(fen)].  [None] is the [TypeError] of [castling.split]
    when the string has fewer than three fields.  The empty set of the field
    initialiser is replaced at once and is not allocated here. *)
Definition constructor (fen : string) : option ChessGame :=
  let fields := JsString.split " " fen in
  let boardPart := default "" (fields !! 0%nat) in
  castling ← fields !! 2%nat;
  let rights : gset string :=
    if eqs castling "-" then ∅ else list_to_set (JsString.chars castling) in
  Some (updateGameState
    (mkGame (fenToBoard boardPart) None [] [] 0%nat [rights] []
       (intOr 0 (fields !! 4%nat)) (intOr 1 (fields !! 5%nat))
       false None false false false false None)).

Definition startFen : string :=
  "rnbqkbnr/pppppppp/8/8/8/8/PPPPPPPP/RNBQKBNR w KQkq - 0 1".

(** ** Vocabulary of the properties *)

(** The side to move, from the parity of the move log as in
    [updateGameState]. *)
Definition sideToMove (g : ChessGame) : Color :=
  if (length (moveLog g) mod 2 =? 0)%nat then White else Black.

(** [toP] is offered by [getValidMoves] for the square [fromP]. *)
Definition offered (g : ChessGame) (fromP toP : Position) : bool :=
  existsb (samePos toP) (getValidMoves fromP false g).1.

(** A legal move of the side to move: a piece of that side stands on
    [fromP] and the destination is offered by [getValidMoves]. *)
Definition legalMove (g : ChessGame) (fromP toP : Position) : bool :=
  existsb (λ pp, samePos fromP pp.2) (getPieces g (sideToMove g))
  && offered g fromP toP.

(** A game played through the engine: every move is checked to be legal
    and then applied with [move]. *)
Fixpoint playLegal (ms : list (Position * Position * option string))
    (g : ChessGame) : option ChessGame :=
  match ms with
  | [] => Some g
  | (f, t, promo) :: ms' =>
      if legalMove g f t then
        match move f t promo g with
        | Some (Some _, g') => playLegal ms' g'
        | _ => None
        end
      else None
  end.

Definition sq (r c : Z) : Position := mkPos r c.

Definition quiet (r c r' c' : Z) : Position * Position * option string :=
  (sq r c, sq r' c', None).

(** The number of legal destinations of one side: the sum, over the squares
    that hold a piece of that side, of the length of [getValidMoves]. *)
Definition countLegalDestinations (color : Color) (g : ChessGame) : nat :=
  foldr (λ pp n, (length (getValidMoves pp.2 false g).1 + n)%nat) 0%nat
    (getPieces g color).

(** The end-of-game fields never go back. *)
Definition statusKept (g g' : ChessGame) : Prop :=
  (isCheckmate g = true → isCheckmate g' = true)
  ∧ (isStalemate g = true → isStalemate g' = true)
  ∧ (isDraw g = true → isDraw g' = true)
  ∧ (gameOver g = true → gameOver g' = true)
  ∧ (winner g ≠ None → winner g' ≠ None).

(** The fields that [updateGameState] never assigns. *)
Definition sameGame (g g' : ChessGame) : Prop :=
  board g' = board g ∧ lastMove g' = lastMove g ∧ moveLog g' = moveLog g
  ∧ redoStack g' = redoStack g ∧ castlingRights g' = castlingRights g
  ∧ heap g' = heap g ∧ history g' = history g
  ∧ halfMoveClock g' = halfMoveClock g
  ∧ fullMoveNumber g' = fullMoveNumber g.

(** The conditions that [getValidKingMoves] tests for one castling side:
    the right is in the set, the listed squares of the king's row are empty
    and the listed squares are not attacked by the opponent. *)
Definition castlingSide (g : ChessGame) (kingRow : Z) (opponent : Color)
    (right : string) (emptyCols safeCols : list Z) : Prop :=
  hasRight g right = true
  ∧ Forall (λ c, cellAt (board g) kingRow c = ".") emptyCols
  ∧ Forall (λ c, isSquareAttacked g (mkPos kingRow c) opponent = false)
      safeCols.

(** Concrete games.  [orEmpty] reads a game out of a construction or a
    play that succeeded. *)
Definition emptyGame : ChessGame :=
  mkGame [] None [] [] 0%nat [] [] 0 1 false None false false false false None.

Definition orEmpty (o : option ChessGame) : ChessGame := default emptyGame o.

Definition initialGame : ChessGame := orEmpty (constructor startFen).

Definition playFrom (fen : string)
    (ms : list (Position * Position * option string)) : option ChessGame :=
  constructor fen ≫= playLegal ms.

(** The state that a call of [move] leaves, when it does not fail. *)
Definition stateAfter (o : option (option MoveResult * ChessGame))
  : ChessGame := orEmpty (snd <$> o).

(** Both rooks and the king at home, nothing between them. *)
Definition castlingFen : string :=
  "r3k2r/pppppppp/8/8/8/8/PPPPPPPP/R3K2R w KQkq - 0 1".

(** A projection of the state that does not depend on the board, or on
    the store of sets. *)
Definition ignoresBoard {A} (π : ChessGame → A) : Prop :=
  ∀ b g, π (set_board b g) = π g.

Definition ignoresHeap {A} (π : ChessGame → A) : Prop :=
  ∀ h g, π (set_heap h g) = π g.

(** The end-of-game fields as one value. *)
Definition status (g : ChessGame)
  : bool * bool * bool * bool * option Color :=
  (isCheckmate g, isStalemate g, isDraw g, gameOver g, winner g).

(** The number of further squares of the board on the ray from (r, c) in
    the direction (dr, dc). *)
Definition raySquaresLeft (r c dr dc : Z) : Z :=
  if dr =? 1 then 7 - r
  else if dr =? -1 then r
  else if dc =? 1 then 7 - c
  else c.

(** The directions of the rays: one step along a row, a column or a
    diagonal. *)
Definition isDirection (dr dc : Z) : Prop :=
  -1 ≤ dr ≤ 1 ∧ -1 ≤ dc ≤ 1 ∧ (dr ≠ 0 ∨ dc ≠ 0).

(** The castling-rights reference and one cell of the store, as one
    projection of the state. *)
Definition rightsSlot (n : nat) (g : ChessGame) : SetRef * option (gset string) :=
  (castlingRights g, heap g !! n).

(** One operation of the engine. *)
Inductive step (g : ChessGame) : ChessGame → Prop :=
  | step_move fromP toP promo r g' :
      move fromP toP promo g = Some (r, g') → step g g'
  | step_undo : step g (undo g)
  | step_redo : step g (redo g).

(** Any number of operations. *)
Inductive steps (g : ChessGame) : ChessGame → Prop :=
  | steps_refl : steps g g
  | steps_more g1 g2 : step g g1 → steps g1 g2 → steps g g2.

(** The letter that [move] places for a promotion choice, for the colour
    of the pawn. *)
Definition promotedLetter (white : bool) (choice : option string) : string :=
  let promoteTo :=
    JsString.toLowerCase
      (match choice with
       | Some s => if truthy s then s else "q"
       | None => "q"
       end) in
  if white then JsString.toUpperCase promoteTo else promoteTo.

(** Openings used as concrete inputs. *)

(** 1. e4 d6 2. e5 a6: the white pawn on its fifth rank can take on d6. *)
Definition pawnTakesOpening : list (Position * Position * option string) :=
  [quiet 6 4 4 4; quiet 1 3 2 3; quiet 4 4 3 4; quiet 1 0 2 0].

(** 1. a4 b5 2. axb5 a6 3. bxa6 h6 4. a7 h5: the white pawn on a7 can take
    the knight on b8 and promote. *)
Definition promotionOpening : list (Position * Position * option string) :=
  [quiet 6 0 4 0; quiet 1 1 3 1; quiet 4 0 3 1; quiet 1 0 2 0;
   quiet 3 1 2 0; quiet 1 7 2 7; quiet 2 0 1 0; quiet 2 7 3 7].

(** Both sides move a knight out and back: the starting layout returns
    after every fourth move. *)
Definition knightShuffle : list (Position * Position * option string) :=
  [quiet 7 6 5 5; quiet 0 6 2 5; quiet 5 5 7 6; quiet 2 5 0 6].

(** Kings and pawns only, with all four castling rights declared. *)
Definition rooklessFen : string :=
  "4k3/pppppppp/8/8/8/8/PPPPPPPP/4K3 w KQkq - 0 1".

Definition castlingGame : ChessGame := orEmpty (constructor castlingFen).

Definition promotionGame : ChessGame :=
  orEmpty (playFrom startFen promotionOpening).

(** * The rest of the program

    The countdown timer of [hooks/Timer.ts], the clock display of
    [pages/GamePage.tsx] and the move notation of the board component. *)

(** [String(n)] for an integer is stdpp's decimal [pretty]. *)
Definition showZ (n : Z) : string := pretty n.

(** [s.padStart(2, "0")]. *)
Definition padStart2 (s : string) : string :=
  match String.length s with
  | 0%nat => "00"
  | 1%nat => String.append "0" s
  | _ => s
  end.

Module Timer.

Record Time := mkTime { hours : Z; minutes : Z; seconds : option Z }.

Definition timeToSeconds (time : Time) : Z :=
  hours time * 3600 + minutes time * 60 + default 0 (seconds time).

(** [Math.floor(x / d)] is [Z.div] for a positive [d]; [%] is the remainder
    with the sign of the dividend, [Z.rem]. *)
Definition secondsToTime (secs : Z) : Time :=
  let hrs := secs / 3600 in
  let mins := Z.rem secs 3600 / 60 in
  let secs' := Z.rem secs 60 in
  mkTime hrs mins (Some secs').

(** The state that [useTimer] keeps between renders: the two [useState]
    cells, the two refs, and the number of calls of [options.onComplete].
    State updates are taken at their effect once the handler has run. *)
Record TimerState := mkTimer {
  remainingSeconds : Z;
  isRunning : bool;
  intervalRef : option nat;
  initialSecondsRef : Z;
  completions : nat
}.

(** The first render: [useState] and [useRef] initialisers. *)
Definition useTimer (initialTime : Time) (autoStart : option bool)
  : TimerState :=
  mkTimer (timeToSeconds initialTime) (default false autoStart) None
    (timeToSeconds initialTime) 0.

(** [startTimer]; [handle] is the value that [window.setInterval] returns. *)
Definition startTimer (handle : nat) (t : TimerState) : TimerState :=
  match intervalRef t with
  | Some _ => t
  | None =>
      mkTimer (remainingSeconds t) true (Some handle) (initialSecondsRef t)
        (completions t)
  end.

(** One run of the interval callback, that is of the updater that it hands
    to [setRemainingSeconds].  The callback does not read [intervalRef]
    before it acts: [clearInterval] on a ref that is already null does
    nothing, and the other statements run as they stand. *)
Definition tick (t : TimerState) : TimerState :=
  if remainingSeconds t <=? 1 then
    mkTimer 0 false None (initialSecondsRef t) (S (completions t))
  else
    mkTimer (remainingSeconds t - 1) (isRunning t) (intervalRef t)
      (initialSecondsRef t) (completions t).

Definition pauseTimer (t : TimerState) : TimerState :=
  match intervalRef t with
  | Some _ =>
      mkTimer (remainingSeconds t) false None (initialSecondsRef t)
        (completions t)
  | None => t
  end.

Definition resetTimer (t : TimerState) : TimerState :=
  let t := pauseTimer t in
  mkTimer (initialSecondsRef t) (isRunning t) (intervalRef t)
    (initialSecondsRef t) (completions t).

(** The mount effect [if (options.autoStart) startTimer()]. *)
Definition mount (autoStart : option bool) (handle : nat) (t : TimerState)
  : TimerState :=
  if default false autoStart then startTimer handle t else t.

(** What can happen to a mounted timer. *)
Inductive Event := Start (handle : nat) | Pause | Reset | Tick.

Definition apply (e : Event) (t : TimerState) : TimerState :=
  match e with
  | Start h => startTimer h t
  | Pause => pauseTimer t
  | Reset => resetTimer t
  | Tick => tick t
  end.

Definition run (es : list Event) (t : TimerState) : TimerState :=
  foldl (λ t e, apply e t) t es.

(** [isRunning] tells whether an interval is set, and the counters are not
    negative. *)
Definition coherent (t : TimerState) : Prop :=
  (isRunning t = true ↔ intervalRef t ≠ None)
  ∧ 0 ≤ remainingSeconds t
  ∧ 0 ≤ initialSecondsRef t.

(** A time as [secondsToTime] produces it. *)
Definition normal (t : Time) : Prop :=
  0 ≤ hours t ∧ 0 ≤ minutes t < 60
  ∧ ∃ s, seconds t = Some s ∧ 0 ≤ s < 60.

End Timer.

(** [formatTime] of [GamePage]. *)
Definition formatTime (t : Timer.Time) : string :=
  let m := padStart2 (showZ (Timer.minutes t + Timer.hours t * 60)) in
  let s := padStart2 (showZ (default 0 (Timer.seconds t))) in
  String.append m (String.append ":" s).

(** [files[col]] inside a template string: the letter, or the text
    [undefined] when the index is outside the string. *)
Definition fileLetter (c : Z) : string :=
  if (0 <=? c) && (c <? 8)
  then default "" (JsString.chars "abcdefgh" !! Z.to_nat c)
  else "undefined".

Definition moveToSimpleSAN (mv : Move) : string :=
  String.append (fileLetter (col (from mv)))
    (String.append (showZ (8 - row (from mv)))
       (String.append (fileLetter (col (to mv)))
          (showZ (8 - row (to mv))))).

(** ** Vocabulary of the further properties *)

(** The board on which the filter of [getValidMoves] tests one
    destination: the piece lifted from [pos] and put on [toP]. *)
Definition probed (g : ChessGame) (pos toP : Position) : ChessGame :=
  let piece' := cellAt (board g) (row pos) (col pos) in
  set_board
    (setCell (setCell (board g) (row pos) (col pos) ".") (row toP) (col toP)
       piece') g.

(** The colour whose king the filter protects. *)
Definition moverColor (g : ChessGame) (pos : Position) : Color :=
  if betweenAZ (cellAt (board g) (row pos) (col pos)) then White else Black.

(** The cached end-of-game fields agree with each other. *)
Definition statusCoherent (g : ChessGame) : Prop :=
  gameOver g = isCheckmate g || isStalemate g || isDraw g
  ∧ (winner g ≠ None ↔ isCheckmate g = true).

(** The reference to the castling rights points into the store. *)
Definition validRights (g : ChessGame) : Prop :=
  (castlingRights g < length (heap g))%nat.

(** The cells of a board that [fenToBoard] can read back: the empty marker
    or one character that is neither a digit, nor white space, nor the row
    separator. *)
Definition fenCell (s : string) : Prop :=
  s = "."
  ∨ ∃ c, s = String c EmptyString
         ∧ JsString.isDigitChar c = false
         ∧ JsString.isSpaceChar c = false
         ∧ c ≠ "/"%char.

(** What a destination may hold, for the piece on [pos]: nothing, a piece
    of the other colour, or (for a pawn) it is the en passant square with
    respect to the last move. *)
Definition okTarget (g : ChessGame) (pos d : Position) : Prop :=
  let piece' := cellAt (board g) (row pos) (col pos) in
  let target := cellAt (board g) (row d) (col d) in
  target = "."
  ∨ (if isWhitePiece piece' then isBlackPiece target else isWhitePiece target)
    = true
  ∨ ∃ lm, lastMove g = Some lm ∧ isEnpassantMove g pos d lm = true.

(** 1. e4 e5: the white king can step to e2. *)
Definition kingStepGame : ChessGame :=
  orEmpty (playFrom startFen [quiet 6 4 4 4; quiet 1 4 3 4]).

(** The local values of [move]: whether the call captures en passant,
    the piece that is put on the destination, and whether the call
    castles. *)
Definition capturesEnPassant (g : ChessGame) (fromP toP : Position)
    (piece' : string) : bool :=
  (eqs piece' "P" || eqs piece' "p")
  && match lastMove g with
     | Some lm => isEnpassantMove g fromP toP lm
     | None => false
     end.

Definition pieceToPlace (piece' : string) (toP : Position)
    (promo : option string) : string :=
  if eqs piece' "P" && (row toP =? 0) || eqs piece' "p" && (row toP =? 7)
  then promotedLetter (eqs piece' "P") promo
  else piece'.

Definition castles (piece' : string) (fromP toP : Position) : bool :=
  (eqs piece' "K" || eqs piece' "k") && (Z.abs (col fromP - col toP) =? 2).

(** The pawn captures that [undo] takes for en passant: a white pawn from
    row 3 to row 2 or a black pawn from row 4 to row 5, one column aside. *)
Definition enPassantShape (piece' : string) (fromP toP : Position) : bool :=
  (eqs piece' "P" && (row fromP =? 3) && (row toP =? 2)
   || eqs piece' "p" && (row fromP =? 4) && (row toP =? 5))
  && (Z.abs (col fromP - col toP) =? 1).

(** Every cell of the board is a non-empty string. *)
Definition cellsNonEmpty (b : Board) : Prop :=
  ∀ r c x, lookupCell b r c = Some x → x ≠ "".


(** 1. f3 e5 2. g4: the black queen can mate on h4. *)
Definition foolsMateGame : ChessGame :=
  orEmpty (playFrom startFen
             [quiet 6 5 5 5; quiet 1 4 3 4; quiet 6 6 4 6]).

(** The text that [boardToFen] appends for one row, and the cells of
    row [i] as its inner loop reads them. *)
Definition rowFen (cells : list string) (empty : nat) : string :=
  fenOfRow cells empty "".

Definition rowCells (b : Board) (i : Z) : list string :=
  map (λ j, cellAt b i j) range8.

(** The two separators of a FEN string. *)
Definition sepChar (c : ascii) : bool := Ascii.eqb c "/" || Ascii.eqb c " ".

(** [fenCell] as a test. *)
Definition isFenCell (s : string) : bool :=
  match s with
  | String c EmptyString =>
      negb (JsString.isDigitChar c) && negb (JsString.isSpaceChar c)
      && negb (Ascii.eqb c "/")
  | _ => false
  end.

(** The letters of pawn, rook and queen in lower case. *)
Definition heavyChar (c : ascii) : bool :=
  Ascii.eqb c "p" || Ascii.eqb c "r" || Ascii.eqb c "q".

(** The letter that [findKing] looks for. *)
Definition kingLetter (color : Color) : string :=
  if color is White then "K" else "k".

(** ... 2... Qh4: White is mated. *)
Definition matedGame : ChessGame :=
  stateAfter (move (sq 0 3) (sq 4 7) None foolsMateGame).





(** * Properties *)

(** ** The board as a store of cells *)

Section BoardStore.

Implicit Types (b : Board) (r c : Z) (v w : string).

Lemma setCell_row b r c v (i : nat) :
  setCell b r c v !! i =
  if decide (0 ≤ r ∧ 0 ≤ c ∧ Z.to_nat r = i)
  then (λ cells, <[Z.to_nat c := v]> cells) <$> b !! i
  else b !! i.
Proof.
  unfold setCell.
  destruct (0 <=? r) eqn:Hr; destruct (0 <=? c) eqn:Hc; simpl;
    try (case_decide; [lia | reflexivity]).
  rewrite list_lookup_alter.
  repeat case_decide; subst; try reflexivity; lia.
Qed.

Lemma setCell_overwrite b r c v w :
  setCell (setCell b r c v) r c w = setCell b r c w.
Proof.
  apply list_eq; intros i. rewrite !setCell_row.
  case_decide; [|reflexivity].
  destruct (b !! i); simpl; [|reflexivity].
  by rewrite list_insert_insert_eq.
Qed.

Lemma setCell_swap b r c v r' c' w :
  r ≠ r' ∨ c ≠ c' →
  setCell (setCell b r c v) r' c' w = setCell (setCell b r' c' w) r c v.
Proof.
  intros Hne. apply list_eq; intros i. rewrite !setCell_row.
  repeat case_decide; try reflexivity.
  destruct (b !! i); simpl; [|reflexivity].
  f_equal. apply list_insert_insert_ne. lia.
Qed.

Lemma lookupCell_row b r c cells :
  0 ≤ r → 0 ≤ c → b !! Z.to_nat r = Some cells →
  lookupCell b r c = cells !! Z.to_nat c.
Proof.
  intros Hr Hc Hb. unfold lookupCell.
  destruct (0 <=? r) eqn:?; [|lia]. destruct (0 <=? c) eqn:?; [|lia].
  simpl. by rewrite Hb.
Qed.

Lemma setCell_same b r c : setCell b r c (cellAt b r c) = b.
Proof.
  apply list_eq; intros i. rewrite setCell_row.
  case_decide as H; [|reflexivity].
  destruct H as (Hr & Hc & <-).
  destruct (b !! Z.to_nat r) as [cells|] eqn:Hb; simpl; [|reflexivity].
  f_equal. unfold cellAt. rewrite (lookupCell_row _ _ _ cells) by done.
  destruct (cells !! Z.to_nat c) as [x|] eqn:Hx; simpl.
  - by apply list_insert_id.
  - apply list_insert_ge. by apply lookup_ge_None.
Qed.

Lemma lookupCell_setCell_other b r c v r' c' :
  r ≠ r' ∨ c ≠ c' →
  lookupCell (setCell b r c v) r' c' = lookupCell b r' c'.
Proof.
  intros Hne. unfold lookupCell.
  destruct (0 <=? r') eqn:Hr'; destruct (0 <=? c') eqn:Hc'; simpl; try done.
  rewrite setCell_row. case_decide as H; [|reflexivity].
  destruct H as (Hr & Hc & Heq).
  destruct (b !! Z.to_nat r'); simpl; [|reflexivity].
  apply list_lookup_insert_ne. lia.
Qed.

Lemma cellAt_setCell_other b r c v r' c' :
  r ≠ r' ∨ c ≠ c' → cellAt (setCell b r c v) r' c' = cellAt b r' c'.
Proof. intros. unfold cellAt. by rewrite lookupCell_setCell_other. Qed.

Lemma wf_board_lookup b r c :
  wf_board b → isInBounds r c = true → ∃ x, lookupCell b r c = Some x.
Proof.
  intros [Hlen Hrows] Hin. unfold isInBounds in Hin.
  apply andb_prop in Hin as [Hin Hc2]. apply andb_prop in Hin as [Hin Hc1].
  apply andb_prop in Hin as [Hr1 Hr2].
  destruct (lookup_lt_is_Some_2 b (Z.to_nat r)) as [cells Hb]; [lia|].
  rewrite (lookupCell_row _ _ _ cells) by (done || lia).
  apply lookup_lt_is_Some_2.
  rewrite Forall_forall in Hrows.
  rewrite (Hrows cells) by (by eapply list_elem_of_lookup_2). lia.
Qed.

Lemma lookupCell_setCell_same b r c v :
  is_Some (lookupCell b r c) → lookupCell (setCell b r c v) r c = Some v.
Proof.
  intros [x Hx]. unfold lookupCell in *.
  destruct (0 <=? r) eqn:Hr; destruct (0 <=? c) eqn:Hc; simpl in *; try done.
  rewrite setCell_row. case_decide; [|lia].
  destruct (b !! Z.to_nat r) as [cells|]; simpl in *; [|done].
  apply list_lookup_insert_eq. by eapply lookup_lt_Some.
Qed.

Lemma wf_board_setCell b r c v : wf_board b → wf_board (setCell b r c v).
Proof.
  intros [Hlen Hrows]. unfold setCell.
  destruct ((0 <=? r) && (0 <=? c)); [|done].
  split; [by rewrite length_alter|].
  apply Forall_alter; [done|]. intros cells _ Hc. by rewrite length_insert.
Qed.

End BoardStore.

(** ** The legal-move query is a probe *)

Section Probe.

Lemma set_board_same g : set_board (board g) g = g.
Proof. by destruct g. Qed.

(** The four writes of the filter callback cancel out. *)
Lemma tryMove_writes (b : Board) rp cp rt ct :
  let piece' := cellAt b rp cp in
  setCell
    (setCell (setCell (setCell b rp cp ".") rt ct piece') rp cp piece')
    rt ct (cellAt b rt ct) = b.
Proof.
  intros piece'. destruct (decide (rp = rt ∧ cp = ct)) as [[-> ->]|Hne].
  - rewrite !setCell_overwrite. apply setCell_same.
  - assert (rt ≠ rp ∨ ct ≠ cp) as Hne' by lia.
    rewrite (setCell_swap _ rt ct _ rp cp) by done.
    rewrite (setCell_overwrite b rp cp). subst piece'.
    rewrite setCell_same, setCell_overwrite. apply setCell_same.
Qed.

Lemma tryMove_state pos toP g :
  (tryMove pos (cellAt (board g) (row pos) (col pos)) toP g).2 = g.
Proof.
  unfold tryMove; simpl. unfold set_board at 1; simpl.
  rewrite tryMove_writes. by destruct g.
Qed.

Lemma filterSt_state {A} (f : A → ChessGame → bool * ChessGame) xs g :
  (∀ x, (f x g).2 = g) → (filterSt f xs g).2 = g.
Proof.
  intros Hf. induction xs as [|x xs IH]; [done|]. simpl.
  specialize (Hf x). destruct (f x g) as [keep g1]. simpl in Hf. subst g1.
  destruct (filterSt f xs g) as [rest g2]. by simpl in *.
Qed.

Lemma filterSt_sub {A} (f : A → ChessGame → bool * ChessGame) xs g x :
  In x (filterSt f xs g).1 → In x xs.
Proof.
  revert g. induction xs as [|y xs IH]; intros g; [done|]. simpl.
  destruct (f y g) as [keep g1].
  destruct (filterSt f xs g1) as [rest g2] eqn:Hrest.
  specialize (IH g1). rewrite Hrest in IH. simpl in *.
  destruct keep; simpl; intuition.
Qed.

Lemma getValidMoves_state pos forAttackCheck g :
  (getValidMoves pos forAttackCheck g).2 = g.
Proof.
  unfold getValidMoves. destruct forAttackCheck; [done|].
  apply filterSt_state. intros toP. apply tryMove_state.
Qed.

Lemma collectMoves_state pieces g : (collectMoves pieces g).2 = g.
Proof.
  induction pieces as [|[p pos] rest IH]; [done|]. cbn [collectMoves].
  pose proof (getValidMoves_state pos false g) as Hg.
  destruct (getValidMoves pos false g) as [moves g1]. simpl in Hg. subst g1.
  destruct (collectMoves rest g) as [others g2]. exact IH.
Qed.

Lemma getAllValidMoves_state kingColor g :
  (getAllValidMoves kingColor g).2 = g.
Proof. apply collectMoves_state. Qed.

End Probe.

(** ** What [updateGameState] writes *)

Lemma statusKept_refl g : statusKept g g.
Proof. by repeat split. Qed.

Lemma statusKept_trans g1 g2 g3 :
  statusKept g1 g2 → statusKept g2 g3 → statusKept g1 g3.
Proof. unfold statusKept. intuition. Qed.

Lemma updateGameState_spec g :
  sameGame g (updateGameState g) ∧ statusKept g (updateGameState g).
Proof.
  unfold updateGameState.
  set (turn := if (length (moveLog g) mod 2 =? 0)%nat then White else Black).
  set (g1 := set_check _ _ g).
  pose proof (getAllValidMoves_state turn g1) as Hst.
  destruct (getAllValidMoves turn g1) as [allMoves g2]. simpl in Hst.
  subst g2.
  repeat match goal with |- context [if ?c then _ else _] =>
           destruct c end.
  all: split; [by repeat split|].
  all: unfold statusKept; simpl; intuition congruence.
Qed.

Lemma updateGameState_same g : sameGame g (updateGameState g).
Proof. apply updateGameState_spec. Qed.

Lemma updateGameState_kept g : statusKept g (updateGameState g).
Proof. apply updateGameState_spec. Qed.

Lemma updateGameState_board g : board (updateGameState g) = board g.
Proof. apply updateGameState_same. Qed.

(** ** Projections through the helpers of the commands *)

Section Projections.

Context {A : Type} (π : ChessGame → A).

Lemma proj_when c f g : (∀ x, π (f x) = π x) → π (when c f g) = π g.
Proof. intros Hf. unfold when. by destruct c. Qed.

Lemma proj_write r c v g : ignoresBoard π → π (write r c v g) = π g.
Proof. intros Hb. apply Hb. Qed.

Lemma proj_castleRook r c g : ignoresBoard π → π (castleRook r c g) = π g.
Proof.
  intros Hb. unfold castleRook.
  repeat case_match; rewrite ?proj_write; done.
Qed.

Lemma proj_uncastleRook r c g : ignoresBoard π → π (uncastleRook r c g) = π g.
Proof.
  intros Hb. unfold uncastleRook.
  repeat case_match; rewrite ?proj_write; done.
Qed.

Lemma proj_deleteRight r g : ignoresHeap π → π (deleteRight r g) = π g.
Proof. intros Hh. apply Hh. Qed.

End Projections.

Lemma status_ignoresBoard : ignoresBoard status.
Proof. by intros b g. Qed.

Lemma status_ignoresHeap : ignoresHeap status.
Proof. by intros h g. Qed.

Lemma statusKept_status g g' : status g' = status g → statusKept g g'.
Proof.
  unfold status. intros [= H1 H2 H3 H4 H5]. unfold statusKept.
  rewrite H1, H2, H3, H4, H5. by repeat split.
Qed.

(** Peels the helpers of [move], [undo] and [redo] off a projection that
    none of them assigns. *)
Ltac peel π Hb Hh :=
  repeat first
    [ rewrite (proj_when π) by
        (intros; first [ apply (proj_write π); exact Hb
                       | apply (proj_castleRook π); exact Hb
                       | apply (proj_uncastleRook π); exact Hb
                       | apply (proj_deleteRight π); exact Hh ])
    | rewrite (proj_write π) by exact Hb
    | rewrite (proj_deleteRight π) by exact Hh
    | rewrite (proj_castleRook π) by exact Hb
    | rewrite (proj_uncastleRook π) by exact Hb ].


Lemma move_status fromP toP promo r g g' :
  move fromP toP promo g = Some (r, g') → status g' = status g
  ∨ ∃ g0, status g0 = status g ∧ g' = updateGameState g0.
Proof.
  unfold move. destruct (lookupCell _ _ _) as [piece'|]; simpl; [|done].
  destruct (eqs piece' "." || _); [left; congruence|].
  unfold newSet. cbv zeta. intros [= _ <-]. right. eexists; split; [|done].
  change (status (set_redoStack ?l ?g)) with (status g).
  change (status (set_moveLog ?l ?g)) with (status g).
  change (status (set_lastMove ?l ?g)) with (status g).
  peel status status_ignoresBoard status_ignoresHeap.
  repeat case_match; peel status status_ignoresBoard status_ignoresHeap;
    reflexivity.
Qed.

Lemma undo_status g : status (undo g) = status g.
Proof.
  unfold undo. destruct (last (moveLog g)) as [lastM|]; [|done].
  cbv zeta.
  change (status (set_lastMove ?l ?g)) with (status g).
  change (status (set_redoStack ?l ?g)) with (status g).
  change (status (set_castlingRights ?l ?g)) with (status g).
  repeat case_match; peel status status_ignoresBoard status_ignoresHeap;
    reflexivity.
Qed.

Lemma redo_status g : status (redo g) = status g.
Proof.
  unfold redo. destruct (last (redoStack g)) as [mv|]; [|done].
  cbv zeta.
  change (status (set_lastMove ?l ?g)) with (status g).
  change (status (set_moveLog ?l ?g)) with (status g).
  repeat case_match; peel status status_ignoresBoard status_ignoresHeap;
    reflexivity.
Qed.

Lemma step_statusKept g g' : step g g' → statusKept g g'.
Proof.
  destruct 1 as [fromP toP promo r g2 Hmove| |].
  - destruct (move_status _ _ _ _ _ _ Hmove) as [Heq|(g0 & Heq & ->)].
    + by apply statusKept_status.
    + eapply statusKept_trans; [by apply statusKept_status|].
      apply updateGameState_kept.
  - apply statusKept_status, undo_status.
  - apply statusKept_status, redo_status.
Qed.

(** ** The ray loops terminate within their fuel *)

Section Rays.

Variables (b : Board) (dr dc : Z).
Hypothesis Hdir : isDirection dr dc.

Lemma raySquaresLeft_inBounds r c :
  isInBounds r c = true → 0 ≤ raySquaresLeft r c dr dc ≤ 7.
Proof.
  unfold isInBounds, raySquaresLeft. intros H.
  repeat (apply andb_prop in H as [H ?]).
  repeat case_match; lia.
Qed.

Lemma raySquaresLeft_step r c :
  raySquaresLeft (r + dr) (c + dc) dr dc = raySquaresLeft r c dr dc - 1.
Proof.
  destruct Hdir as (Hr & Hc & Hnz). unfold raySquaresLeft.
  repeat case_match; lia.
Qed.

(** Two amounts of fuel that both exceed the squares left on the ray give
    the same moves. *)
Lemma slideRay_enough isWhite (n m : nat) :
  ∀ r c,
    (isInBounds r c = true →
     raySquaresLeft r c dr dc < Z.of_nat n
     ∧ raySquaresLeft r c dr dc < Z.of_nat m) →
    slideRay n b isWhite r c dr dc = slideRay m b isWhite r c dr dc.
Proof.
  revert m. induction n as [|n IH]; intros [|m] r c Hfuel; simpl; try done.
  - destruct (isInBounds r c) eqn:Hin; [|done].
    pose proof (raySquaresLeft_inBounds r c Hin). specialize (Hfuel eq_refl).
    lia.
  - destruct (isInBounds r c) eqn:Hin; [|done].
    pose proof (raySquaresLeft_inBounds r c Hin). specialize (Hfuel eq_refl).
    lia.
  - destruct (isInBounds r c) eqn:Hin; [|done].
    specialize (Hfuel eq_refl).
    destruct (eqs (cellAt b r c) "."); [|done].
    f_equal. apply IH. intros _. rewrite raySquaresLeft_step. lia.
Qed.

Lemma attackRay_enough byColor isRookDirection (n m : nat) :
  ∀ r c,
    (isInBounds r c = true →
     raySquaresLeft r c dr dc < Z.of_nat n
     ∧ raySquaresLeft r c dr dc < Z.of_nat m) →
    attackRay n b byColor isRookDirection r c dr dc
    = attackRay m b byColor isRookDirection r c dr dc.
Proof.
  revert m. induction n as [|n IH]; intros [|m] r c Hfuel; simpl; try done.
  - destruct (isInBounds r c) eqn:Hin; [|done].
    pose proof (raySquaresLeft_inBounds r c Hin). specialize (Hfuel eq_refl).
    lia.
  - destruct (isInBounds r c) eqn:Hin; [|done].
    pose proof (raySquaresLeft_inBounds r c Hin). specialize (Hfuel eq_refl).
    lia.
  - destruct (isInBounds r c) eqn:Hin; [|done].
    specialize (Hfuel eq_refl).
    destruct (negb (eqs (cellAt b r c) ".")); [done|].
    apply IH. intros _. rewrite raySquaresLeft_step. lia.
Qed.

(** The fuel 8 of [getSlidingMoves] is never exhausted: more fuel gives the
    same list. *)
Lemma slideRay_fuel isWhite (n : nat) r c :
  (8 ≤ n)%nat →
  slideRay n b isWhite r c dr dc = slideRay 8 b isWhite r c dr dc.
Proof.
  intros Hn. apply slideRay_enough. intros Hin.
  pose proof (raySquaresLeft_inBounds r c Hin). lia.
Qed.

(** The same for the rays of [isSquareAttacked]. *)
Lemma attackRay_fuel byColor isRookDirection (n : nat) r c :
  (8 ≤ n)%nat →
  attackRay n b byColor isRookDirection r c dr dc
  = attackRay 8 b byColor isRookDirection r c dr dc.
Proof.
  intros Hn. apply attackRay_enough. intros Hin.
  pose proof (raySquaresLeft_inBounds r c Hin). lia.
Qed.

End Rays.

(** Every direction that the engine casts a ray in is a direction. *)
Lemma engine_directions dr dc :
  In (dr, dc) (rookDirections ++ bishopDirections) → isDirection dr dc.
Proof.
  simpl. intros H.
  repeat (destruct H as [[= <- <-]|H]; [unfold isDirection; lia|]). done.
Qed.

(** ** Invariants of the commands *)

Lemma board_ignoresHeap : ignoresHeap board.
Proof. by intros h g. Qed.

Lemma wf_write r c v g :
  wf_board (board g) → wf_board (board (write r c v g)).
Proof. apply wf_board_setCell. Qed.

Lemma wf_when c f g :
  (∀ x, wf_board (board x) → wf_board (board (f x))) →
  wf_board (board g) → wf_board (board (when c f g)).
Proof. intros Hf Hg. unfold when. destruct c; auto. Qed.

Lemma wf_castleRook r c g :
  wf_board (board g) → wf_board (board (castleRook r c g)).
Proof.
  intros Hg. unfold castleRook. repeat case_match; auto using wf_write.
Qed.

Lemma wf_uncastleRook r c g :
  wf_board (board g) → wf_board (board (uncastleRook r c g)).
Proof.
  intros Hg. unfold uncastleRook. repeat case_match; auto using wf_write.
Qed.

(** [move] keeps the board an 8 by 8 grid. *)
Lemma move_wf fromP toP promo r g g' :
  wf_board (board g) → move fromP toP promo g = Some (r, g') →
  wf_board (board g').
Proof.
  intros Hwf. unfold move.
  destruct (lookupCell _ _ _) as [piece'|]; simpl; [|done].
  destruct (eqs piece' "." || _); [by intros [= _ <-]|].
  unfold newSet. cbv zeta. intros [= _ <-].
  rewrite updateGameState_board.
  change (board (set_redoStack ?l ?g)) with (board g).
  change (board (set_moveLog ?l ?g)) with (board g).
  change (board (set_lastMove ?l ?g)) with (board g).
  peel board I board_ignoresHeap.
  repeat case_match; peel board I board_ignoresHeap;
    apply wf_when; auto using wf_castleRook;
    repeat apply wf_write; apply wf_when; auto using wf_write.
Qed.

(** [undo] keeps the board an 8 by 8 grid. *)
Lemma undo_wf g : wf_board (board g) → wf_board (board (undo g)).
Proof.
  intros Hwf. unfold undo. destruct (last (moveLog g)) as [lastM|]; [|done].
  cbv zeta.
  change (board (set_lastMove ?l ?g)) with (board g).
  change (board (set_redoStack ?l ?g)) with (board g).
  change (board (set_castlingRights ?l ?g)) with (board g).
  repeat case_match; repeat apply wf_write;
    apply wf_when; auto using wf_uncastleRook; repeat apply wf_write; done.
Qed.

(** [redo] keeps the board an 8 by 8 grid. *)
Lemma redo_wf g : wf_board (board g) → wf_board (board (redo g)).
Proof.
  intros Hwf. unfold redo. destruct (last (redoStack g)) as [mv|]; [|done].
  cbv zeta.
  change (board (set_lastMove ?l ?g)) with (board g).
  change (board (set_moveLog ?l ?g)) with (board g).
  repeat case_match; peel board I board_ignoresHeap;
    apply wf_when; auto using wf_castleRook;
    repeat apply wf_write; apply wf_when; auto using wf_write.
Qed.

(** Every state reached from an 8 by 8 board has an 8 by 8 board. *)
Lemma steps_wf g g' : steps g g' → wf_board (board g) → wf_board (board g').
Proof.
  induction 1 as [|g g1 g2 Hstep _ IH]; [done|]. intros Hwf. apply IH.
  destruct Hstep as [fromP toP promo r g1 Hmove| |];
    eauto using move_wf, undo_wf, redo_wf.
Qed.

Lemma history_ignoresBoard : ignoresBoard history.
Proof. by intros b g. Qed.

Lemma history_ignoresHeap : ignoresHeap history.
Proof. by intros h g. Qed.

(** No command writes the position history. *)
Lemma move_history fromP toP promo r g g' :
  move fromP toP promo g = Some (r, g') → history g' = history g.
Proof.
  unfold move. destruct (lookupCell _ _ _) as [piece'|]; simpl; [|done].
  destruct (eqs piece' "." || _); [by intros [= _ <-]|].
  unfold newSet. cbv zeta. intros [= _ <-].
  match goal with |- history (updateGameState ?x) = _ =>
    destruct (updateGameState_same x) as (_ & _ & _ & _ & _ & _ & -> & _)
  end.
  change (history (set_redoStack ?l ?g)) with (history g).
  change (history (set_moveLog ?l ?g)) with (history g).
  change (history (set_lastMove ?l ?g)) with (history g).
  peel history history_ignoresBoard history_ignoresHeap.
  repeat case_match; peel history history_ignoresBoard history_ignoresHeap;
    reflexivity.
Qed.

Lemma undo_history g : history (undo g) = history g.
Proof.
  unfold undo. destruct (last (moveLog g)) as [lastM|]; [|done].
  cbv zeta.
  change (history (set_lastMove ?l ?g)) with (history g).
  change (history (set_redoStack ?l ?g)) with (history g).
  change (history (set_castlingRights ?l ?g)) with (history g).
  repeat case_match; peel history history_ignoresBoard history_ignoresHeap;
    reflexivity.
Qed.

Lemma redo_history g : history (redo g) = history g.
Proof.
  unfold redo. destruct (last (redoStack g)) as [mv|]; [|done].
  cbv zeta.
  change (history (set_lastMove ?l ?g)) with (history g).
  change (history (set_moveLog ?l ?g)) with (history g).
  repeat case_match; peel history history_ignoresBoard history_ignoresHeap;
    reflexivity.
Qed.

Lemma steps_history g g' : steps g g' → history g' = history g.
Proof.
  induction 1 as [|g g1 g2 Hstep _ IH]; [done|]. rewrite IH.
  destruct Hstep as [fromP toP promo r g1 Hmove| |];
    eauto using move_history, undo_history, redo_history.
Qed.

Lemma constructor_history fen g : constructor fen = Some g → history g = [].
Proof.
  unfold constructor. destruct (_ !! 2%nat); simpl; [|done].
  intros [= <-].
  match goal with |- history (updateGameState ?x) = _ =>
    destruct (updateGameState_same x) as (_ & _ & _ & _ & _ & _ & -> & _)
  end.
  reflexivity.
Qed.

(** In a game built by the constructor and driven by the commands, the
    repetition test is false in every state. *)
Lemma isThreefoldRepetition_never fen g g' :
  constructor fen = Some g → steps g g' → isThreefoldRepetition g' = false.
Proof.
  intros Hc Hs. unfold isThreefoldRepetition.
  rewrite (steps_history _ _ Hs), (constructor_history _ _ Hc). reflexivity.
Qed.

(** ** The result of [move] *)

Lemma lookupCell_Some_row (b : Board) r c x :
  wf_board b → lookupCell b r c = Some x → 0 ≤ r < 8 ∧ 0 ≤ c < 8.
Proof.
  intros [Hlen Hrows] Hx. unfold lookupCell in Hx.
  destruct (0 <=? r) eqn:Hr; destruct (0 <=? c) eqn:Hc; simpl in Hx; try done.
  destruct (b !! Z.to_nat r) as [cells|] eqn:Hb; simpl in Hx; [|done].
  apply lookup_lt_Some in Hb as Hlt. apply lookup_lt_Some in Hx as Hlt'.
  rewrite Forall_forall in Hrows.
  rewrite (Hrows cells) in Hlt' by (by eapply list_elem_of_lookup_2). lia.
Qed.

Lemma isEnpassantMove_row g fromP toP lm :
  isEnpassantMove g fromP toP lm = true →
  let piece' := cellAt (board g) (row fromP) (col fromP) in
  (if eqs piece' "P" then row toP + 1 else row toP - 1) = row fromP.
Proof.
  unfold isEnpassantMove. cbv zeta.
  destruct (eqs _ "P") eqn:HP; simpl.
  - rewrite orb_true_r. simpl.
    destruct (Z.abs _ =? 1); simpl; [|done].
    destruct (row toP - row fromP =? -1) eqn:Hd; simpl; [|done]. lia.
  - rewrite orb_false_r. destruct (eqs _ "p"); simpl; [|done].
    destruct (Z.abs _ =? 1); simpl; [|done].
    destruct (row toP - row fromP =? 1) eqn:Hd; simpl; [|done]. lia.
Qed.

(** On an 8 by 8 board whose cells are non-empty strings (pieces and the
    empty marker "."), every call of [move] that does not return null
    returns [captured = true]. *)
Lemma move_capturedFlag fromP toP promo r g g' :
  wf_board (board g) →
  (∀ a b x, lookupCell (board g) a b = Some x → x ≠ "") →
  move fromP toP promo g = Some (Some r, g') →
  capturedFlag r = true.
Proof.
  intros Hwf Hcells. unfold move.
  destruct (lookupCell _ _ _) as [piece'|] eqn:Hp; simpl; [|done].
  destruct (eqs piece' ".") eqn:Hdot; simpl; [done|].
  destruct (isInBounds (row toP) (col toP)) eqn:Hto; simpl; [|done].
  unfold newSet. cbv zeta. intros [= <- _]. simpl.
  assert (∀ a b, isInBounds a b = true → truthy (cellAt (board g) a b) = true)
    as Htruthy.
  { intros a b Hin. destruct (wf_board_lookup _ _ _ Hwf Hin) as [x Hx].
    unfold cellAt. rewrite Hx. simpl. apply Hcells in Hx.
    unfold truthy, eqs. by destruct x. }
  match goal with |- truthy (if ?ep then _ else _) = true =>
    destruct ep eqn:Hep end; [|by apply Htruthy].
  apply Htruthy.
  apply andb_prop in Hep as [_ Hep].
  destruct (lastMove _) as [lm|]; [|done].
  apply isEnpassantMove_row in Hep. simpl in Hep.
  unfold cellAt in Hep. rewrite Hp in Hep. simpl in Hep. rewrite Hep.
  destruct (lookupCell_Some_row _ _ _ _ Hwf Hp) as [Hr _].
  unfold isInBounds in *.
  repeat (apply andb_prop in Hto as [Hto ?]).
  repeat (apply andb_true_intro; split); lia.
Qed.

(** ** What [undo] restores after [move] *)

Section UndoAfterMove.

Variables (n : nat) (cr : SetRef) (s : gset string).
Hypothesis Hfresh : cr ≠ n.

(** The rights reference is [cr] and the set stored at [n] is [s]. *)
Let slot (g : ChessGame) : Prop := rightsSlot n g = (cr, Some s).

Lemma slot_write r c v g : slot g → slot (write r c v g).
Proof. done. Qed.

Lemma slot_deleteRight r g : slot g → slot (deleteRight r g).
Proof.
  unfold slot, rightsSlot, deleteRight. simpl. intros [= Hcr Hn].
  rewrite Hcr, list_lookup_alter_ne by done. by rewrite Hn.
Qed.

Lemma slot_castleRook r c g : slot g → slot (castleRook r c g).
Proof. intros Hg. unfold castleRook. by repeat case_match. Qed.

Lemma slot_when c f g : (∀ x, slot x → slot (f x)) → slot g → slot (when c f g).
Proof. intros Hf Hg. unfold when. destruct c; auto. Qed.

End UndoAfterMove.

Lemma heap_ignoresBoard : ignoresBoard heap.
Proof. by intros b g. Qed.

Lemma moveLog_ignoresBoard : ignoresBoard moveLog.
Proof. by intros b g. Qed.

Lemma moveLog_ignoresHeap : ignoresHeap moveLog.
Proof. by intros b g. Qed.

(** Carries the rights reference and one cell of the store through the
    helpers of [move]. *)
Ltac slot_tac Hfresh :=
  repeat first
    [ apply slot_when;
      [ intros ? ?;
        first [ by apply slot_deleteRight | by apply slot_castleRook
              | by apply slot_write ] | ]
    | apply slot_deleteRight; [exact Hfresh|]
    | apply slot_castleRook
    | apply slot_write
    | match goal with
      | |- rightsSlot _ (if ?c then _ else _) = _ => destruct c
      end ].

(** What a successful [move] leaves in the log and in the store: the new
    record is the tail of the log, and its snapshot is a fresh set that holds
    the rights from before the move. *)
Lemma move_shape fromP toP promo r g g' :
  (castlingRights g < length (heap g))%nat →
  move fromP toP promo g = Some (Some r, g') →
  ∃ mv,
    moveLog g' = moveLog g ++ [mv]
    ∧ castlingRightsBefore mv = length (heap g)
    ∧ heap g' !! length (heap g) = Some (rightsOf g).
Proof.
  intros Hvalid. unfold move.
  destruct (lookupCell _ _ _) as [piece'|] eqn:Hp; simpl; [|done].
  destruct (eqs piece' "." || _); [done|].
  unfold newSet. cbv zeta. intros [= _ <-].
  eexists.
  match goal with |- context [updateGameState ?x] =>
    destruct (updateGameState_same x) as (_ & _ & -> & _ & _ & -> & _)
  end.
  change (heap (set_redoStack ?l ?g)) with (heap g).
  change (heap (set_moveLog ?l ?g)) with (heap g).
  change (heap (set_lastMove ?l ?g)) with (heap g).
  cbn [moveLog set_redoStack set_moveLog set_lastMove].
  split; [|split].
  - f_equal.
    peel moveLog moveLog_ignoresBoard moveLog_ignoresHeap.
    repeat match goal with
           | |- moveLog (if ?c then _ else _) = _ => destruct c
           end;
      peel moveLog moveLog_ignoresBoard moveLog_ignoresHeap; reflexivity.
  - reflexivity.
  - match goal with |- heap ?Y !! ?n = Some ?s =>
      assert (rightsSlot n Y = (castlingRights g, Some s)) as Hslot
    end.
    { assert (castlingRights g ≠ length (heap g)) as Hfresh by lia.
      slot_tac Hfresh.
      all: unfold rightsSlot; simpl; f_equal.
      all: by rewrite lookup_app_r, Nat.sub_diag. }
    by injection Hslot.
Qed.

(** After a successful [move], [undo] restores the contents of the
    castling rights and the move log, and sets the last move to the tail of
    the restored log.  (For the board see the statements below.) *)
Lemma move_then_undo fromP toP promo r g g' :
  (castlingRights g < length (heap g))%nat →
  move fromP toP promo g = Some (Some r, g') →
  rightsOf (undo g') = rightsOf g
  ∧ lastMove (undo g') = last (moveLog g)
  ∧ moveLog (undo g') = moveLog g.
Proof.
  intros Hvalid Hmove.
  destruct (move_shape _ _ _ _ _ _ Hvalid Hmove) as (mv & Hlog & Hrb & Hheap).
  unfold undo. rewrite Hlog, last_snoc. cbv zeta.
  unfold rightsOf at 1.
  cbn [castlingRights heap lastMove moveLog set_lastMove set_redoStack
       set_castlingRights].
  rewrite removelast_last.
  destruct (realCapture (captured mv));
    [match goal with
     | |- context [if ?c then write _ _ _ _ else write _ _ _ _] => destruct c
     end|];
    peel heap heap_ignoresBoard I;
    peel moveLog moveLog_ignoresBoard moveLog_ignoresHeap;
    cbn [heap moveLog set_moveLog];
    by rewrite Hrb, Hheap.
Qed.

(** ** Statements of the specification *)

(** C9.  [getValidMoves] with the default legality filter is a probe: on a
    well-formed board and for a square of the board, the state after the
    call is the state before it, in every field (board, castling rights and
    their store, move log, redo stack, position history, last move, clocks
    and status flags). *)
Theorem getValidMoves_leaves_state_unchanged (g : ChessGame) (pos : Position) :
  wf_board (board g) →
  isInBounds (row pos) (col pos) = true →
  (getValidMoves pos false g).2 = g.
Proof. intros _ _. apply getValidMoves_state. Qed.

(** C7.  With a from-square inside the board, [move] on an empty
    from-square or towards a square outside the board returns the null
    result, does not fail, and leaves every field of the state as it
    was. *)
Theorem move_from_empty_or_to_outside_is_null
    (g : ChessGame) (fromP toP : Position) (promo : option string) :
  wf_board (board g) →
  isInBounds (row fromP) (col fromP) = true →
  cellAt (board g) (row fromP) (col fromP) = "."
  ∨ isInBounds (row toP) (col toP) = false →
  move fromP toP promo g = Some (None, g).
Proof.
  intros Hwf Hfrom Hcase. unfold move.
  destruct (wf_board_lookup _ _ _ Hwf Hfrom) as [piece' Hp].
  unfold cellAt in Hcase. rewrite Hp in *. simpl in *.
  destruct Hcase as [-> | ->]; [done|].
  by rewrite orb_true_r.
Qed.

(** C10.  Over any sequence of [move], [undo] and [redo], the flags
    [isCheckmate], [isStalemate], [isDraw] and [gameOver] never go from true
    back to false and [winner] never goes from a value back to null. *)
Theorem end_of_game_flags_never_reset (g g' : ChessGame) :
  steps g g' → statusKept g g'.
Proof.
  induction 1 as [|g g1 g2 Hstep _ IH]; [apply statusKept_refl|].
  eapply statusKept_trans; [by apply step_statusKept | exact IH].
Qed.

(** ** Castling destinations *)

Lemma getLeapingMoves_kingOffsets_near g pos dest :
  In dest (getLeapingMoves g pos kingOffsets) →
  Z.abs (col dest - col pos) ≤ 1.
Proof.
  unfold getLeapingMoves. intros Hin.
  apply in_flat_map in Hin as ([dr dc] & Hoff & Hin).
  destruct (isInBounds _ _); [|done].
  destruct (_ || _); [|done].
  destruct Hin as [<-|[]]. simpl.
  unfold kingOffsets in Hoff. simpl in Hoff.
  repeat (destruct Hoff as [[= <- <-]|Hoff]; [lia|]). done.
Qed.

Lemma getValidKingMoves_far g pos dest :
  In dest (getValidKingMoves g pos) →
  Z.abs (col dest - col pos) = 2 →
  let white := isWhitePiece (cellAt (board g) (row pos) (col pos)) in
  let kingRow := if white then 7 else 0 in
  let opponent := if white then Black else White in
  pos = mkPos kingRow 4
  ∧ row dest = kingRow
  ∧ isSquareAttacked g pos opponent = false
  ∧ (col dest = 6
     ∧ castlingSide g kingRow opponent (if white then "K" else "k")
         [5; 6] [5; 6]
     ∨ col dest = 2
       ∧ castlingSide g kingRow opponent (if white then "Q" else "q")
           [1; 2; 3] [2; 3]).
Proof.
  unfold getValidKingMoves. cbv zeta.
  set (white := isWhitePiece _). set (kingRow := if white then 7 else 0).
  set (opponent := if white then Black else White).
  intros Hin Hfar.
  assert (¬ In dest (getLeapingMoves g pos kingOffsets)) as Hleap.
  { intros H%getLeapingMoves_kingOffsets_near. lia. }
  destruct (row pos =? kingRow) eqn:Hrow; simpl in Hin; [|done].
  destruct (col pos =? 4) eqn:Hcol; simpl in Hin; [|done].
  destruct (isSquareAttacked g pos opponent) eqn:Hatt; simpl in Hin; [done|].
  assert (pos = mkPos kingRow 4) as Hpos.
  { destruct pos as [r c]. simpl in *. f_equal; lia. }
  split; [done|].
  assert (∀ (c : bool) (l : list Position) x,
            In dest (if c then l ++ [x] else l) →
            c = true ∧ dest = x ∨ In dest l) as Hpush.
  { intros [] l x H; [|by right].
    apply in_app_or in H as [H|[<-|[]]]; [by right | by left]. }
  apply Hpush in Hin as [[Hq Hd]|Hin]; [subst dest; simpl in *|].
  { repeat (apply andb_prop in Hq as [Hq ?]).
    split; [done|]. split; [done|]. right. split; [done|].
    unfold castlingSide, eqs in *.
    repeat match goal with H : (_ =? _)%string = true |- _ =>
             apply String.eqb_eq in H end.
    repeat match goal with H : negb _ = true |- _ =>
             apply negb_true_iff in H end.
    repeat split; auto. }
  apply Hpush in Hin as [[Hk Hd]|Hin]; [subst dest; simpl in *|done].
  repeat (apply andb_prop in Hk as [Hk ?]).
  split; [done|]. split; [done|]. left. split; [done|].
  unfold castlingSide, eqs in *.
  repeat match goal with H : (_ =? _)%string = true |- _ =>
           apply String.eqb_eq in H end.
  repeat match goal with H : negb _ = true |- _ =>
           apply negb_true_iff in H end.
  repeat split; auto.
Qed.

(** C6 (as the engine has it).  On a square holding a king, a destination
    of [getValidMoves] two columns away from the king is a castling
    destination, and it is offered only when the king stands on column 4 of
    its home row, its square is not attacked, the right of that side is in
    the set, the squares between king and rook are empty, and the square the
    king crosses and the destination are not attacked.  The presence of the
    rook on its corner is not among the conditions. *)
Theorem castling_destination_conditions
    (g : ChessGame) (pos dest : Position) :
  wf_board (board g) →
  isInBounds (row pos) (col pos) = true →
  cellAt (board g) (row pos) (col pos) = "K"
  ∨ cellAt (board g) (row pos) (col pos) = "k" →
  In dest (getValidMoves pos false g).1 →
  Z.abs (col dest - col pos) = 2 →
  let white := bool_decide (cellAt (board g) (row pos) (col pos) = "K") in
  let kingRow := if white then 7 else 0 in
  let opponent := if white then Black else White in
  pos = mkPos kingRow 4
  ∧ row dest = kingRow
  ∧ isSquareAttacked g pos opponent = false
  ∧ (col dest = 6
     ∧ castlingSide g kingRow opponent (if white then "K" else "k")
         [5; 6] [5; 6]
     ∨ col dest = 2
       ∧ castlingSide g kingRow opponent (if white then "Q" else "q")
           [1; 2; 3] [2; 3]).
Proof.
  intros _ _ Hking Hin Hfar.
  unfold getValidMoves in Hin. apply filterSt_sub in Hin.
  unfold patternMoves in Hin.
  pose proof (getValidKingMoves_far g pos dest) as Hfarther.
  destruct Hking as [Hk|Hk]; rewrite Hk in *; simpl in Hin;
    specialize (Hfarther Hin Hfar); exact Hfarther.
Qed.

(** ** Promotion *)

(** The two writes of [move] for a pawn that is not castling, read back at
    the destination. *)
Lemma promotion_writes (g : ChessGame) rf cf rt ct rc v (enPassant : bool) :
  wf_board (board g) → isInBounds rt ct = true →
  rf ≠ rt ∨ cf ≠ ct → rc ≠ rt →
  cellAt
    (board
       (write rf cf "."
          (write rt ct v (when enPassant (write rc ct ".") g))))
    rt ct = v.
Proof.
  intros Hwf Hin Hne Hrc.
  assert (wf_board (board (when enPassant (write rc ct ".") g))) as Hwf'.
  { destruct enPassant; [by apply wf_board_setCell | done]. }
  unfold write at 1 2. simpl.
  rewrite cellAt_setCell_other by done.
  unfold cellAt. rewrite lookupCell_setCell_same; [done|].
  destruct (wf_board_lookup _ rt ct Hwf' Hin) as [x Hx]. by eexists.
Qed.

(** C3 (as the engine has it).  When a pawn reaches the farthest rank,
    [move] places on the destination the promotion choice itself, in lower
    case for Black and in upper case for White: a queen when the choice is
    absent or empty, and the chosen queen, rook, bishop or knight when the
    choice is one of q, r, b, n.  Other letters are placed as they are;
    they are not turned into a queen. *)
Theorem promotion_places_the_choice
    (g g' : ChessGame) (fromP toP : Position) (choice : option string)
    (r : MoveResult) :
  wf_board (board g) →
  isInBounds (row fromP) (col fromP) = true →
  cellAt (board g) (row fromP) (col fromP) = "P" ∧ row toP = 0
  ∨ cellAt (board g) (row fromP) (col fromP) = "p" ∧ row toP = 7 →
  fromP ≠ toP →
  move fromP toP choice g = Some (Some r, g') →
  let white := bool_decide (cellAt (board g) (row fromP) (col fromP) = "P") in
  let placed := cellAt (board g') (row toP) (col toP) in
  placed = promotedLetter white choice
  ∧ (choice = None ∨ choice = Some "" → placed = if white then "Q" else "q")
  ∧ (∀ l, In l ["q"; "r"; "b"; "n"] → choice = Some l →
       placed = if white then JsString.toUpperCase l else l).
Proof.
  intros Hwf Hfrom Hpawn Hne Hmove white placed.
  assert (placed = promotedLetter white choice) as Hplaced.
  { subst placed white. unfold move in Hmove.
    destruct (wf_board_lookup _ _ _ Hwf Hfrom) as [piece' Hp].
    unfold cellAt in Hpawn |- *. rewrite Hp in *. simpl in Hpawn, Hmove |- *.
    assert (row fromP ≠ row toP ∨ col fromP ≠ col toP) as Hcell.
    { destruct fromP as [a b], toP as [c d]. simpl.
      destruct (decide (a = c)); [|by left].
      destruct (decide (b = d)); [|by right]. by subst. }
    destruct Hpawn as [[-> Hrow]|[-> Hrow]].
    - simpl in Hmove.
      destruct (isInBounds (row toP) (col toP)) eqn:Hto; [|done].
      simpl in Hmove. unfold newSet in Hmove. cbv zeta in Hmove.
      injection Hmove as _ <-.
      rewrite updateGameState_board.
      change (board (set_redoStack ?l ?g)) with (board g).
      change (board (set_moveLog ?l ?g)) with (board g).
      change (board (set_lastMove ?l ?g)) with (board g).
      peel board I board_ignoresHeap.
      replace (row toP =? 0) with true by lia. simpl.
      apply (promotion_writes (set_heap _ g)); [done|done|done|lia].
    - simpl in Hmove.
      destruct (isInBounds (row toP) (col toP)) eqn:Hto; [|done].
      simpl in Hmove. unfold newSet in Hmove. cbv zeta in Hmove.
      injection Hmove as _ <-.
      rewrite updateGameState_board.
      change (board (set_redoStack ?l ?g)) with (board g).
      change (board (set_moveLog ?l ?g)) with (board g).
      change (board (set_lastMove ?l ?g)) with (board g).
      peel board I board_ignoresHeap.
      replace (row toP =? 7) with true by lia. simpl.
      apply (promotion_writes (set_heap _ g)); [done|done|done|lia]. }
  split; [done|]. rewrite Hplaced. split.
  - intros [-> | ->]; by destruct white.
  - intros l Hl ->. simpl in Hl.
    destruct Hl as [<-|[<-|[<-|[<-|[]]]]]; by destruct white.
Qed.

(** ** The starting position *)

(** C8.  The game constructed from the standard starting FEN has the
    standard layout, the rights K, Q, k, q and an empty move log, White is to
    move, and the lengths of [getValidMoves] over the squares that hold a
    white piece add up to 20; [getAllValidMoves] lists as many moves. *)
Theorem starting_position_has_twenty_destinations :
  match constructor startFen with
  | Some g =>
      board g = fenToBoard "rnbqkbnr/pppppppp/8/8/8/8/PPPPPPPP/RNBQKBNR"
      ∧ rightsOf g = {["K"; "Q"; "k"; "q"]}
      ∧ moveLog g = []
      ∧ sideToMove g = White
      ∧ countLegalDestinations White g = 20%nat
      ∧ length (getAllValidMoves White g).1 = 20%nat
  | None => False
  end.
Proof. vm_compute. by repeat split. Qed.

(** ** Evaluations at concrete games *)

(** C1 at a failing input.  After 1. e4 d6 2. e5 a6 the capture exd6 is
    offered by [getValidMoves] and is not en passant; [move] then [undo]
    puts the captured pawn on d5 (row 3), behind the destination, and
    leaves d6 (row 2) empty: the board before the move is not restored. *)
Theorem undo_misplaces_piece_captured_from_fifth_rank :
  match playFrom startFen pawnTakesOpening with
  | Some g =>
      legalMove g (sq 3 4) (sq 2 3) = true
      ∧ (isEnpassantMove g (sq 3 4) (sq 2 3) <$> lastMove g) = Some false
      ∧ match move (sq 3 4) (sq 2 3) None g with
        | Some (Some _, g') =>
            cellAt (board g) 2 3 = "p" ∧ cellAt (board g) 3 3 = "."
            ∧ cellAt (board g') 2 3 = "P"
            ∧ cellAt (board (undo g')) 2 3 = "."
            ∧ cellAt (board (undo g')) 3 3 = "p"
            ∧ board (undo g') ≠ board g
            ∧ rightsOf (undo g') = rightsOf g
            ∧ lastMove (undo g') = lastMove g
        | _ => False
        end
  | None => False
  end.
Proof. vm_compute. by repeat split. Qed.

(** C2 at a failing input.  Both sides move a knight out and back three
    times: the starting layout stands on the board after the fourth, the
    eighth and the twelfth move, yet the position history is empty, the
    repetition test is false and the game is neither drawn nor over. *)
Theorem repetition_is_never_recorded :
  let game := knightShuffle ++ knightShuffle ++ knightShuffle in
  match constructor startFen, playFrom startFen game with
  | Some g0, Some g =>
      (board <$> playFrom startFen (take 4 game)) = Some (board g0)
      ∧ (board <$> playFrom startFen (take 8 game)) = Some (board g0)
      ∧ board g = board g0
      ∧ length (moveLog g) = 12%nat
      ∧ history g = []
      ∧ isThreefoldRepetition g = false
      ∧ isDraw g = false
      ∧ gameOver g = false
  | _, _ => False
  end.
Proof. vm_compute. by repeat split. Qed.

(** C4 at a failing input.  After 1. a4 b5 2. axb5 a6 3. bxa6 h6 4. a7 h5
    the pawn takes on b8 and promotes to a queen; [undo] then [redo] leaves
    the pawn itself on b8. *)
Theorem redo_of_promotion_places_the_pawn :
  match playFrom startFen promotionOpening with
  | Some g =>
      legalMove g (sq 1 0) (sq 0 1) = true
      ∧ match move (sq 1 0) (sq 0 1) (Some "q") g with
        | Some (Some _, g') =>
            cellAt (board g') 0 1 = "Q"
            ∧ cellAt (board (redo (undo g'))) 0 1 = "P"
            ∧ board (redo (undo g')) ≠ board g'
        | _ => False
        end
  | None => False
  end.
Proof. vm_compute. by repeat split. Qed.

(** C5 at a failing input.  In the starting position the pawn move e2-e4
    goes to an empty square, there is no last move and so no en passant,
    and the result of [move] still carries [captured = true]. *)
Theorem quiet_move_reports_a_capture :
  match constructor startFen with
  | Some g =>
      legalMove g (sq 6 4) (sq 4 4) = true
      ∧ cellAt (board g) 4 4 = "."
      ∧ lastMove g = None
      ∧ match move (sq 6 4) (sq 4 4) None g with
        | Some (Some r, g') =>
            capturedFlag r = true
            ∧ (captured <$> lastMove g') = Some (Some ".")
        | _ => False
        end
  | None => False
  end.
Proof. vm_compute. by repeat split. Qed.

(** C3, counterexample.  With the promotion choice "k", a letter outside
    q, r, b, n, the white pawn that takes on b8 is replaced by a king, not
    by a queen. *)
Lemma promotion_choice_outside_set_is_not_a_queen :
  match playFrom startFen promotionOpening with
  | Some g =>
      cellAt (board g) 1 0 = "P"
      ∧ legalMove g (sq 1 0) (sq 0 1) = true
      ∧ match move (sq 1 0) (sq 0 1) (Some "k") g with
        | Some (Some _, g') =>
            cellAt (board g') 0 1 = "K"
            ∧ ¬ In (cellAt (board g') 0 1) ["Q"; "R"; "B"; "N"]
        | _ => False
        end
  | None => False
  end.
Proof.
  vm_compute. repeat split; try done.
  intros [H|[H|[H|[H|[]]]]]; discriminate H.
Qed.

(** C6, counterexample.  In the game constructed from a FEN with the
    right K declared and no rook on the board, the white king on e1 is
    offered the castling destination g1 although the corner h1 is empty. *)
Lemma castling_offered_without_rook :
  match constructor rooklessFen with
  | Some g =>
      cellAt (board g) 7 4 = "K"
      ∧ In (sq 7 6) (getValidMoves (sq 7 4) false g).1
      ∧ Z.abs (col (sq 7 6) - col (sq 7 4)) = 2
      ∧ cellAt (board g) 7 7 = "."
      ∧ cellAt (board g) 7 7 ≠ "R"
  | None => False
  end.
Proof. vm_compute. repeat split; try done. tauto. Qed.

(** ** Instances of the statements with hypotheses *)

Lemma wf_board_initialGame : wf_board (board initialGame).
Proof. split; [reflexivity|]. vm_compute. repeat constructor. Defined.

(** C9 at the starting position, for the pawn on e2. *)
Lemma getValidMoves_leaves_state_unchanged_witness :
  wf_board (board initialGame)
  ∧ isInBounds (row (sq 6 4)) (col (sq 6 4)) = true
  ∧ (getValidMoves (sq 6 4) false initialGame).2 = initialGame.
Proof.
  split; [exact wf_board_initialGame|]. split; [reflexivity|].
  apply (getValidMoves_leaves_state_unchanged initialGame (sq 6 4)).
  - exact wf_board_initialGame.
  - reflexivity.
Defined.

(** C7 at the starting position: from the empty square e4. *)
Lemma move_from_empty_or_to_outside_is_null_witness :
  wf_board (board initialGame)
  ∧ isInBounds (row (sq 4 4)) (col (sq 4 4)) = true
  ∧ cellAt (board initialGame) (row (sq 4 4)) (col (sq 4 4)) = "."
  ∧ move (sq 4 4) (sq 3 4) None initialGame = Some (None, initialGame).
Proof.
  split; [exact wf_board_initialGame|]. split; [reflexivity|].
  split; [reflexivity|].
  apply (move_from_empty_or_to_outside_is_null initialGame (sq 4 4) (sq 3 4)).
  - exact wf_board_initialGame.
  - reflexivity.
  - left. reflexivity.
Defined.

(** C10 from the mated position of the fool's mate: taking the mating
    move back leaves the game marked as checkmate, over, and won by Black. *)
Lemma end_of_game_flags_never_reset_witness :
  isCheckmate matedGame = true
  ∧ gameOver matedGame = true
  ∧ winner matedGame = Some Black
  ∧ steps matedGame (undo matedGame)
  ∧ statusKept matedGame (undo matedGame)
  ∧ isCheckmate (undo matedGame) = true
  ∧ gameOver (undo matedGame) = true
  ∧ winner (undo matedGame) ≠ None.
Proof.
  assert (isCheckmate matedGame = true) as Hmate
    by (vm_compute; reflexivity).
  assert (gameOver matedGame = true) as Hover by (vm_compute; reflexivity).
  assert (winner matedGame = Some Black) as Hwin
    by (vm_compute; reflexivity).
  assert (steps matedGame (undo matedGame)) as Hsteps.
  { exact (steps_more matedGame (undo matedGame) (undo matedGame)
             (step_undo matedGame) (steps_refl (undo matedGame))). }
  pose proof (end_of_game_flags_never_reset matedGame (undo matedGame)
                Hsteps) as Hkept.
  split; [exact Hmate|]. split; [exact Hover|]. split; [exact Hwin|].
  split; [exact Hsteps|]. split; [exact Hkept|].
  destruct Hkept as (Hk1 & _ & _ & Hk4 & Hk5).
  split; [exact (Hk1 Hmate)|]. split; [exact (Hk4 Hover)|].
  apply Hk5. rewrite Hwin. discriminate.
Defined.

(** C6 for the white king on e1 with both rooks at home. *)
Lemma castling_destination_conditions_witness :
  wf_board (board castlingGame)
  ∧ isInBounds (row (sq 7 4)) (col (sq 7 4)) = true
  ∧ cellAt (board castlingGame) 7 4 = "K"
  ∧ In (sq 7 6) (getValidMoves (sq 7 4) false castlingGame).1
  ∧ Z.abs (col (sq 7 6) - col (sq 7 4)) = 2
  ∧ castlingSide castlingGame 7 Black "K" [5; 6] [5; 6].
Proof.
  assert (wf_board (board castlingGame)) as Hwf.
  { split; [reflexivity|]. vm_compute. repeat constructor. }
  assert (In (sq 7 6) (getValidMoves (sq 7 4) false castlingGame).1) as Hin.
  { vm_compute. tauto. }
  split; [exact Hwf|]. split; [reflexivity|]. split; [reflexivity|].
  split; [exact Hin|]. split; [reflexivity|].
  destruct (castling_destination_conditions castlingGame (sq 7 4) (sq 7 6))
    as (_ & _ & _ & [[_ Hside]|[Hcol _]]).
  - exact Hwf.
  - reflexivity.
  - left. reflexivity.
  - exact Hin.
  - reflexivity.
  - exact Hside.
  - discriminate Hcol.
Defined.

(** C3 for the white pawn that takes on b8 and becomes a knight. *)
Lemma promotion_places_the_choice_witness :
  let after := move (sq 1 0) (sq 0 1) (Some "n") promotionGame in
  wf_board (board promotionGame)
  ∧ isInBounds (row (sq 1 0)) (col (sq 1 0)) = true
  ∧ cellAt (board promotionGame) 1 0 = "P"
  ∧ row (sq 0 1) = 0
  ∧ sq 1 0 ≠ sq 0 1
  ∧ after = Some (Some (mkResult true false), stateAfter after)
  ∧ cellAt (board (stateAfter after)) 0 1 = "N".
Proof.
  intros after.
  assert (wf_board (board promotionGame)) as Hwf.
  { split; [reflexivity|]. vm_compute. repeat constructor. }
  assert (after = Some (Some (mkResult true false), stateAfter after))
    as Hafter by (vm_compute; reflexivity).
  split; [exact Hwf|]. split; [reflexivity|]. split; [reflexivity|].
  split; [reflexivity|]. split; [discriminate|]. split; [exact Hafter|].
  destruct (promotion_places_the_choice promotionGame (stateAfter after)
              (sq 1 0) (sq 0 1) (Some "n") (mkResult true false))
    as (_ & _ & Hletter).
  - exact Hwf.
  - reflexivity.
  - left. split; reflexivity.
  - discriminate.
  - exact Hafter.
  - exact (Hletter "n" ltac:(simpl; tauto) eq_refl).
Defined.

(** ** The shared snapshot of the castling rights

    [undo] makes [this.castlingRights] the very set object that the undone
    move carries, and [redo] deletes from [this.castlingRights] in place.
    After 1. e4 e5 2. Ke2 an [undo] gives back all four rights; a [redo]
    then removes K and Q from the snapshot of the logged move itself, so that
    a second [undo] no longer restores them. *)
Example redo_writes_into_the_logged_snapshot :
  match playFrom startFen [quiet 6 4 4 4; quiet 1 4 3 4; quiet 7 4 6 4] with
  | Some g =>
      rightsOf g = {["k"; "q"]}
      ∧ rightsOf (undo g) = {["K"; "Q"; "k"; "q"]}
      ∧ rightsOf (redo (undo g)) = {["k"; "q"]}
      ∧ rightsOf (undo (redo (undo g))) = {["k"; "q"]}
      ∧ board (undo (redo (undo g))) = board (undo g)
  | None => False
  end.
Proof. vm_compute. by repeat split. Qed.

(** * Further properties *)

(** ** The countdown timer *)

(** X1.  For a number of seconds that is not negative, [secondsToTime]
    gives hours that are not negative, minutes and seconds below 60, and
    [timeToSeconds] reads the same number back. *)
Theorem timeToSeconds_secondsToTime (s : Z) :
  0 ≤ s →
  Timer.timeToSeconds (Timer.secondsToTime s) = s
  ∧ Timer.normal (Timer.secondsToTime s).
Proof.
  intros Hs. unfold Timer.timeToSeconds, Timer.secondsToTime, Timer.normal.
  simpl. rewrite !Z.rem_mod_nonneg by lia.
  split; [|split; [|split]].
  - Z.to_euclidean_division_equations; lia.
  - Z.to_euclidean_division_equations; lia.
  - Z.to_euclidean_division_equations; lia.
  - eexists; split; [reflexivity|].
    Z.to_euclidean_division_equations; lia.
Qed.

Lemma timeToSeconds_secondsToTime_witness :
  0 ≤ 3725
  ∧ Timer.timeToSeconds (Timer.secondsToTime 3725) = 3725
  ∧ Timer.secondsToTime 3725 = Timer.mkTime 1 2 (Some 5).
Proof.
  split; [lia|]. split; [|reflexivity].
  apply (timeToSeconds_secondsToTime 3725). lia.
Defined.

(** X2.  A time with hours that are not negative, minutes below 60 and
    seconds that are present and below 60 is what [secondsToTime] returns
    for its [timeToSeconds]. *)
Theorem secondsToTime_timeToSeconds (t : Timer.Time) :
  Timer.normal t →
  Timer.secondsToTime (Timer.timeToSeconds t) = t.
Proof.
  destruct t as [h m s]. unfold Timer.normal. simpl.
  intros (Hh & Hm & sec & -> & Hsec).
  unfold Timer.secondsToTime, Timer.timeToSeconds. simpl.
  rewrite !Z.rem_mod_nonneg by lia.
  assert ((h * 3600 + m * 60 + sec) mod 3600 = m * 60 + sec) as ->
    by (Z.to_euclidean_division_equations; lia).
  f_equal.
  - Z.to_euclidean_division_equations; lia.
  - Z.to_euclidean_division_equations; lia.
  - f_equal.
    replace (h * 3600 + m * 60 + sec) with (sec + (h * 60 + m) * 60) by lia.
    rewrite Z_mod_plus_full. apply Z.mod_small. lia.
Qed.

Lemma secondsToTime_timeToSeconds_witness :
  Timer.normal (Timer.mkTime 0 10 (Some 0))
  ∧ Timer.secondsToTime (Timer.timeToSeconds (Timer.mkTime 0 10 (Some 0)))
    = Timer.mkTime 0 10 (Some 0).
Proof.
  assert (Timer.normal (Timer.mkTime 0 10 (Some 0))) as Hn.
  { unfold Timer.normal. simpl. split; [lia|]. split; [lia|].
    exists 0. split; [reflexivity | lia]. }
  split; [exact Hn|].
  apply (secondsToTime_timeToSeconds _ Hn).
Defined.

(** X3.  With [s] seconds left, [s] at least 1, the timer shows [s - k]
    after [k] runs of the interval callback while [k] is below [s], with the
    interval and [isRunning] untouched; run number [s] sets the seconds to
    0, clears the interval, stops the timer and calls [onComplete] for the
    first time.  The callback has no test of its own: every run after that
    one calls [onComplete] again. *)
Theorem countdown_reaches_zero
    (t : Timer.TimerState) (s : Z) (k : nat) :
  Timer.remainingSeconds t = s →
  1 ≤ s →
  Nat.iter k Timer.tick t =
  if Z.of_nat k <? s then
    Timer.mkTimer (s - Z.of_nat k) (Timer.isRunning t) (Timer.intervalRef t)
      (Timer.initialSecondsRef t) (Timer.completions t)
  else
    Timer.mkTimer 0 false None (Timer.initialSecondsRef t)
      (Timer.completions t + (k - Z.to_nat s) + 1)%nat.
Proof.
  intros Hrem Hs. induction k as [|k IH].
  - simpl. change (Z.of_nat 0) with 0. destruct (Z.ltb_spec 0 s); [|lia].
    destruct t; simpl in *. subst. f_equal. lia.
  - rewrite Nat.iter_succ, IH. unfold Timer.tick.
    rewrite Nat2Z.inj_succ.
    destruct (Z.ltb_spec (Z.of_nat k) s); simpl.
    + destruct (Z.leb_spec (s - Z.of_nat k) 1).
      * destruct (Z.ltb_spec (Z.succ (Z.of_nat k)) s); [lia|].
        f_equal. lia.
      * destruct (Z.ltb_spec (Z.succ (Z.of_nat k)) s); [|lia].
        f_equal. lia.
    + destruct (Z.ltb_spec (Z.succ (Z.of_nat k)) s); [lia|].
      f_equal. lia.
Qed.

Lemma countdown_reaches_zero_witness :
  let t := Timer.startTimer 7 (Timer.useTimer (Timer.mkTime 0 0 (Some 3)) None) in
  Timer.remainingSeconds t = 3
  ∧ Nat.iter 2 Timer.tick t = Timer.mkTimer 1 true (Some 7%nat) 3 0
  ∧ Nat.iter 3 Timer.tick t = Timer.mkTimer 0 false None 3 1
  ∧ Nat.iter 4 Timer.tick t = Timer.mkTimer 0 false None 3 2.
Proof.
  intros t. split; [reflexivity|]. split; [|split].
  - exact (countdown_reaches_zero t 3 2 eq_refl ltac:(lia)).
  - exact (countdown_reaches_zero t 3 3 eq_refl ltac:(lia)).
  - exact (countdown_reaches_zero t 3 4 eq_refl ltac:(lia)).
Defined.

Lemma timer_apply_coherent e t : Timer.coherent t → Timer.coherent (Timer.apply e t).
Proof.
  unfold Timer.coherent. intros (Hrun & Hrem & Hinit).
  destruct e; simpl;
    unfold Timer.startTimer, Timer.pauseTimer, Timer.resetTimer, Timer.tick,
      Timer.pauseTimer;
    destruct (Timer.intervalRef t) eqn:Hi; simpl;
    try destruct (Timer.remainingSeconds t <=? 1) eqn:Hle; simpl;
    rewrite ?Hi; repeat split; intros; try done; try lia;
    try (apply Hrun; congruence); try (by apply Hrun in H).
Qed.

(** X4.  After the mount effect, whatever sequence of start, pause, reset
    and interval firings follows, [isRunning] is true exactly when an
    interval is set, and the remaining seconds are never negative, provided
    the initial time is not negative. *)
Theorem timer_stays_coherent
    (initialTime : Timer.Time) (autoStart : option bool) (h : nat)
    (es : list Timer.Event) :
  0 ≤ Timer.timeToSeconds initialTime →
  Timer.coherent
    (Timer.run es (Timer.mount autoStart h (Timer.useTimer initialTime autoStart))).
Proof.
  intros Hinit.
  assert (Timer.coherent
            (Timer.mount autoStart h (Timer.useTimer initialTime autoStart)))
    as Hstart.
  { unfold Timer.mount, Timer.useTimer, Timer.coherent, Timer.startTimer.
    destruct autoStart as [[]|]; simpl; repeat split; done. }
  revert Hstart. generalize (Timer.mount autoStart h
                               (Timer.useTimer initialTime autoStart)).
  unfold Timer.run. induction es as [|e es IH]; intros t Ht; [done|].
  simpl. apply IH. by apply timer_apply_coherent.
Qed.

Lemma timer_stays_coherent_witness :
  let t0 := Timer.mkTime 0 10 (Some 0) in
  0 ≤ Timer.timeToSeconds t0
  ∧ Timer.coherent
      (Timer.run [Timer.Tick; Timer.Pause; Timer.Tick; Timer.Start 2; Timer.Reset]
         (Timer.mount (Some true) 1 (Timer.useTimer t0 (Some true)))).
Proof.
  intros t0. split; [by vm_compute|].
  apply (timer_stays_coherent t0 (Some true) 1). by vm_compute.
Defined.

Lemma timer_apply_initial e t :
  Timer.initialSecondsRef (Timer.apply e t) = Timer.initialSecondsRef t.
Proof.
  destruct e; simpl;
    unfold Timer.startTimer, Timer.pauseTimer, Timer.resetTimer, Timer.tick,
      Timer.pauseTimer;
    repeat case_match; done.
Qed.

(** X5.  No event writes the initial seconds: after any sequence of
    events, [resetTimer] puts back the seconds of the initial time and
    leaves no interval set. *)
Theorem resetTimer_restores_initial_time
    (initialTime : Timer.Time) (autoStart : option bool) (h : nat)
    (es : list Timer.Event) :
  let t := Timer.resetTimer
             (Timer.run es
                (Timer.mount autoStart h
                   (Timer.useTimer initialTime autoStart))) in
  Timer.remainingSeconds t = Timer.timeToSeconds initialTime
  ∧ Timer.intervalRef t = None.
Proof.
  assert (∀ t, Timer.initialSecondsRef (Timer.run es t)
               = Timer.initialSecondsRef t) as Hkeep.
  { unfold Timer.run. induction es as [|e es IH]; intros t; [done|].
    simpl. by rewrite IH, timer_apply_initial. }
  simpl. split.
  - unfold Timer.resetTimer, Timer.pauseTimer.
    case_match; simpl; rewrite Hkeep;
      unfold Timer.mount, Timer.startTimer; by repeat case_match.
  - unfold Timer.resetTimer, Timer.pauseTimer. by case_match.
Qed.

(** ** The clock display and the move notation *)

(** X6.  For seconds that are not negative, the clock shows the whole
    minutes (hours folded in) and the seconds of the minute, each padded to
    two digits. *)
Theorem formatTime_secondsToTime (s : Z) :
  0 ≤ s →
  formatTime (Timer.secondsToTime s) =
  String.append (padStart2 (showZ (s / 60)))
    (String.append ":" (padStart2 (showZ (s mod 60)))).
Proof.
  intros Hs. unfold formatTime, Timer.secondsToTime. simpl.
  rewrite !Z.rem_mod_nonneg by lia.
  replace (s mod 3600 / 60 + s / 3600 * 60) with (s / 60)
    by (Z.to_euclidean_division_equations; lia).
  reflexivity.
Qed.

Lemma formatTime_secondsToTime_witness :
  0 ≤ 545 ∧ formatTime (Timer.secondsToTime 545) = "09:05".
Proof.
  split; [lia|].
  rewrite (formatTime_secondsToTime 545) by lia. reflexivity.
Defined.

Lemma small_cases (z : Z) :
  0 ≤ z < 8 →
  z = 0 ∨ z = 1 ∨ z = 2 ∨ z = 3 ∨ z = 4 ∨ z = 5 ∨ z = 6 ∨ z = 7.
Proof. lia. Qed.

Lemma isInBounds_range r c : isInBounds r c = true → 0 ≤ r < 8 ∧ 0 ≤ c < 8.
Proof.
  unfold isInBounds. intros H. repeat (apply andb_prop in H as [H ?]). lia.
Qed.

Lemma fileLetter_inj c c' :
  0 ≤ c < 8 → 0 ≤ c' < 8 →
  ∃ a, fileLetter c = String a EmptyString
       ∧ (∀ a' rest, fileLetter c' = String a' rest → a' = a → c' = c).
Proof.
  intros Hc Hc'.
  apply small_cases in Hc, Hc'.
  repeat (destruct Hc as [->|Hc]); try subst c;
    (eexists; split; [reflexivity|]);
    repeat (destruct Hc' as [->|Hc']); try subst c';
    intros a' rest [= <- <-]; done.
Qed.

Lemma rankDigit_inj r r' :
  0 ≤ r < 8 → 0 ≤ r' < 8 →
  ∃ a, showZ (8 - r) = String a EmptyString
       ∧ (∀ a' rest, showZ (8 - r') = String a' rest → a' = a → r' = r).
Proof.
  intros Hr Hr'.
  apply small_cases in Hr, Hr'.
  repeat (destruct Hr as [->|Hr]); try subst r;
    (eexists; split; [reflexivity|]);
    repeat (destruct Hr' as [->|Hr']); try subst r';
    intros a' rest [= <- <-]; done.
Qed.

(** X7.  For moves between squares of the board, [moveToSimpleSAN] writes
    four characters, and two moves with the same text have the same
    from-square and the same to-square. *)
Theorem moveToSimpleSAN_distinguishes_moves (m1 m2 : Move) :
  isInBounds (row (from m1)) (col (from m1)) = true →
  isInBounds (row (to m1)) (col (to m1)) = true →
  isInBounds (row (from m2)) (col (from m2)) = true →
  isInBounds (row (to m2)) (col (to m2)) = true →
  String.length (moveToSimpleSAN m1) = 4%nat
  ∧ (moveToSimpleSAN m1 = moveToSimpleSAN m2 →
     from m1 = from m2 ∧ to m1 = to m2).
Proof.
  intros (Hr1 & Hc1)%isInBounds_range (Hr2 & Hc2)%isInBounds_range
         (Hr3 & Hc3)%isInBounds_range (Hr4 & Hc4)%isInBounds_range.
  destruct m1 as [[r1 c1] [r2 c2] p1 cap1 rb1].
  destruct m2 as [[r3 c3] [r4 c4] p2 cap2 rb2].
  unfold moveToSimpleSAN. simpl in *.
  destruct (fileLetter_inj c1 c3 Hc1 Hc3) as (a1 & -> & Ha1).
  destruct (rankDigit_inj r1 r3 Hr1 Hr3) as (b1 & -> & Hb1).
  destruct (fileLetter_inj c2 c4 Hc2 Hc4) as (a2 & -> & Ha2).
  destruct (rankDigit_inj r2 r4 Hr2 Hr4) as (b2 & -> & Hb2).
  split; [reflexivity|]. simpl. intros Heq.
  destruct (fileLetter c3) as [|x1 s1] eqn:E1; simpl in Heq; [|].
  { apply small_cases in Hc3.
    repeat (destruct Hc3 as [->|Hc3]); try subst c3; discriminate E1. }
  assert (s1 = EmptyString) as ->.
  { apply small_cases in Hc3.
    repeat (destruct Hc3 as [->|Hc3]); try subst c3; by injection E1. }
  destruct (showZ (8 - r3)) as [|x2 s2] eqn:E2; simpl in Heq.
  { apply small_cases in Hr3.
    repeat (destruct Hr3 as [->|Hr3]); try subst r3; discriminate E2. }
  assert (s2 = EmptyString) as ->.
  { apply small_cases in Hr3.
    repeat (destruct Hr3 as [->|Hr3]); try subst r3; by injection E2. }
  destruct (fileLetter c4) as [|x3 s3] eqn:E3; simpl in Heq.
  { apply small_cases in Hc4.
    repeat (destruct Hc4 as [->|Hc4]); try subst c4; discriminate E3. }
  assert (s3 = EmptyString) as ->.
  { apply small_cases in Hc4.
    repeat (destruct Hc4 as [->|Hc4]); try subst c4; by injection E3. }
  destruct (showZ (8 - r4)) as [|x4 s4] eqn:E4; simpl in Heq; [done|].
  injection Heq as <- <- <- <- _.
  rewrite (Ha1 _ _ eq_refl eq_refl), (Hb1 _ _ eq_refl eq_refl),
    (Ha2 _ _ eq_refl eq_refl), (Hb2 _ _ eq_refl eq_refl).
  done.
Qed.

Lemma moveToSimpleSAN_distinguishes_moves_witness :
  let e4 := mkMove (sq 6 4) (sq 4 4) "P" (Some ".") 1%nat in
  let e3 := mkMove (sq 6 4) (sq 5 4) "P" (Some ".") 1%nat in
  moveToSimpleSAN e4 = "e2e4" ∧ moveToSimpleSAN e3 = "e2e3"
  ∧ String.length (moveToSimpleSAN e4) = 4%nat.
Proof.
  intros e4 e3. split; [reflexivity|]. split; [reflexivity|].
  apply (moveToSimpleSAN_distinguishes_moves e4 e3); reflexivity.
Defined.

(** ** What the move generator offers *)

Section Generator.

Variable g : ChessGame.

Let onBoard (d : Position) : Prop := isInBounds (row d) (col d) = true.

Lemma eqs_eq a b : eqs a b = true ↔ a = b.
Proof. apply String.eqb_eq. Qed.

Lemma slideRay_sound fuel isWhite r c dr dc d :
  In d (slideRay fuel (board g) isWhite r c dr dc) →
  onBoard d
  ∧ (cellAt (board g) (row d) (col d) = "."
     ∨ (if isWhite then isBlackPiece (cellAt (board g) (row d) (col d))
        else isWhitePiece (cellAt (board g) (row d) (col d))) = true).
Proof.
  revert r c. induction fuel as [|fuel IH]; intros r c; simpl; [done|].
  destruct (isInBounds r c) eqn:Hin; [|done].
  destruct (eqs (cellAt (board g) r c) ".") eqn:Hdot.
  - intros [<-|Hd]; [|by eapply IH].
    split; [done|]. left. by apply eqs_eq.
  - destruct (if isWhite then isBlackPiece (cellAt (board g) r c)
              else isWhitePiece (cellAt (board g) r c)) eqn:Hopp; [|done].
    intros [<-|[]]. split; [done|]. by right.
Qed.

Lemma getSlidingMoves_sound pos dirs d :
  In d (getSlidingMoves g pos dirs) → onBoard d ∧ okTarget g pos d.
Proof.
  unfold getSlidingMoves. intros ([dr dc] & _ & Hd)%in_flat_map.
  apply slideRay_sound in Hd as [Hin Hd]. split; [done|].
  unfold okTarget. tauto.
Qed.

Lemma getLeapingMoves_sound pos offsets d :
  In d (getLeapingMoves g pos offsets) → onBoard d ∧ okTarget g pos d.
Proof.
  unfold getLeapingMoves. intros ([dr dc] & _ & Hd)%in_flat_map.
  destruct (isInBounds _ _) eqn:Hin; [|done].
  destruct (eqs _ "." || _) eqn:Hok; [|done].
  destruct Hd as [<-|[]]. split; [done|]. unfold okTarget. simpl.
  apply orb_prop in Hok as [Hdot%eqs_eq|Hopp]; tauto.
Qed.

Lemma enPassantTargets_sound r c r0 fwd d :
  In d (enPassantTargets g r c r0 fwd) →
  onBoard d ∧ okTarget g (mkPos r c) d.
Proof.
  unfold enPassantTargets. destruct (lastMove g) as [lm|] eqn:Hlm; [|done].
  destruct (r =? r0); [|done].
  intros (dc & _ & Hd)%in_flat_map.
  destruct (isInBounds _ _ && _) eqn:Hok; [|done].
  destruct Hd as [<-|[]]. apply andb_prop in Hok as [Hin Hep].
  split; [done|]. unfold okTarget. right. right. by exists lm.
Qed.

Lemma getValidWhitePawnMoves_sound pos d :
  cellAt (board g) (row pos) (col pos) = "P" →
  In d (getValidWhitePawnMoves g pos) → onBoard d ∧ okTarget g pos d.
Proof.
  intros HP. unfold getValidWhitePawnMoves. cbv zeta.
  rewrite !in_app_iff. intros [Hd|[Hd|Hd]].
  - destruct (isInBounds (row pos - 1) (col pos) && _) eqn:Hstep; [|done].
    apply andb_prop in Hstep as [Hin Hdot%eqs_eq].
    destruct Hd as [<-|Hd]; [split; [done|by left]|].
    destruct ((row pos =? 6) && _) eqn:Hdouble; [|done].
    apply andb_prop in Hdouble as [Hrow Hdot2%eqs_eq].
    destruct Hd as [<-|[]]. split; [|by left].
    unfold onBoard, isInBounds in *. simpl.
    repeat (apply andb_prop in Hin as [Hin ?]).
    repeat (apply andb_true_intro; split); lia.
  - apply in_flat_map in Hd as (dc & _ & Hd).
    destruct (isInBounds _ _ && _) eqn:Hcap; [|done].
    apply andb_prop in Hcap as [Hin Hblack].
    destruct Hd as [<-|[]]. split; [done|].
    unfold okTarget. rewrite HP. simpl. by right; left.
  - destruct pos as [r c]. by apply enPassantTargets_sound in Hd.
Qed.

Lemma getValidBlackPawnMoves_sound pos d :
  cellAt (board g) (row pos) (col pos) = "p" →
  In d (getValidBlackPawnMoves g pos) → onBoard d ∧ okTarget g pos d.
Proof.
  intros HP. unfold getValidBlackPawnMoves. cbv zeta.
  rewrite !in_app_iff. intros [Hd|[Hd|Hd]].
  - destruct (isInBounds (row pos + 1) (col pos) && _) eqn:Hstep; [|done].
    apply andb_prop in Hstep as [Hin Hdot%eqs_eq].
    destruct Hd as [<-|Hd]; [split; [done|by left]|].
    destruct ((row pos =? 1) && _) eqn:Hdouble; [|done].
    apply andb_prop in Hdouble as [Hrow Hdot2%eqs_eq].
    destruct Hd as [<-|[]]. split; [|by left].
    unfold onBoard, isInBounds in *. simpl.
    repeat (apply andb_prop in Hin as [Hin ?]).
    repeat (apply andb_true_intro; split); lia.
  - apply in_flat_map in Hd as (dc & _ & Hd).
    destruct (isInBounds _ _ && _) eqn:Hcap; [|done].
    apply andb_prop in Hcap as [Hin Hwhite].
    destruct Hd as [<-|[]]. split; [done|].
    unfold okTarget. rewrite HP. simpl. by right; left.
  - destruct pos as [r c]. by apply enPassantTargets_sound in Hd.
Qed.

Lemma getValidKingMoves_sound pos d :
  In d (getValidKingMoves g pos) → onBoard d ∧ okTarget g pos d.
Proof.
  unfold getValidKingMoves. cbv zeta.
  set (white := isWhitePiece _). set (kingRow := if white then 7 else 0).
  assert (∀ (c : bool) (l : list Position) x,
            In d (if c then l ++ [x] else l) →
            c = true ∧ d = x ∨ In d l) as Hpush.
  { intros [] l x H; [|by right].
    apply in_app_or in H as [H|[<-|[]]]; [by right | by left]. }
  intros Hd.
  assert (In d (getLeapingMoves g pos kingOffsets)
          ∨ (d = mkPos kingRow 6 ∨ d = mkPos kingRow 2)
            ∧ cellAt (board g) (row d) (col d) = ".") as [Hleap|[Hd' Hempty]].
  { destruct (_ || _); [by left|].
    apply Hpush in Hd as [[Hq ->]|Hd].
    - right. split; [by right|]. simpl.
      repeat (apply andb_prop in Hq as [Hq ?]). by apply eqs_eq.
    - apply Hpush in Hd as [[Hk ->]|Hd]; [|by left].
      right. split; [by left|]. simpl.
      repeat (apply andb_prop in Hk as [Hk ?]). by apply eqs_eq. }
  - by apply getLeapingMoves_sound in Hleap.
  - split; [|by left]. unfold onBoard.
    destruct Hd' as [-> | ->]; subst kingRow; by destruct white.
Qed.

Lemma patternMoves_sound pos d :
  In d (patternMoves g pos) → onBoard d ∧ okTarget g pos d.
Proof.
  unfold patternMoves. cbv zeta.
  destruct (eqs _ "P") eqn:HP.
  { apply eqs_eq in HP. by apply getValidWhitePawnMoves_sound. }
  destruct (eqs _ "p") eqn:Hp.
  { apply eqs_eq in Hp. by apply getValidBlackPawnMoves_sound. }
  destruct (_ || _); [apply getSlidingMoves_sound|].
  destruct (_ || _); [apply getSlidingMoves_sound|].
  destruct (_ || _).
  { unfold getValidQueenMoves, getValidRookMoves, getValidBishopMoves.
    rewrite in_app_iff. intros [H|H]; by apply getSlidingMoves_sound in H. }
  destruct (_ || _); [apply getLeapingMoves_sound|].
  destruct (_ || _); [apply getValidKingMoves_sound|done].
Qed.

Lemma getValidMoves_sound pos forAttackCheck d :
  In d (getValidMoves pos forAttackCheck g).1 → onBoard d ∧ okTarget g pos d.
Proof.
  unfold getValidMoves. destruct forAttackCheck; simpl.
  - apply patternMoves_sound.
  - intros H%filterSt_sub. by apply patternMoves_sound.
Qed.

End Generator.

(** X8.  Every destination that [getValidMoves] returns, with or without
    the own-king filter, is a square of the 8 by 8 board, whatever the
    state and the square asked for. *)
Theorem getValidMoves_destinations_on_board
    (g : ChessGame) (pos : Position) (forAttackCheck : bool) :
  Forall (λ d, isInBounds (row d) (col d) = true)
    (getValidMoves pos forAttackCheck g).1.
Proof.
  apply Forall_forall. intros d Hd%list_elem_of_In.
  by apply getValidMoves_sound in Hd as [Hd _].
Qed.


Lemma filterSt_pure {A} (f : A → ChessGame → bool * ChessGame)
    (p : A → bool) xs g :
  (∀ x, f x g = (p x, g)) → filterSt f xs g = (List.filter p xs, g).
Proof.
  intros Hf. induction xs as [|x xs IH]; [done|]. simpl.
  rewrite Hf, IH. by destruct (p x).
Qed.

Lemma tryMove_probed pos d g :
  tryMove pos (cellAt (board g) (row pos) (col pos)) d g
  = (negb (isKingInCheck (probed g pos d) (moverColor g pos)), g).
Proof.
  pose proof (tryMove_state pos d g) as Hst.
  destruct (tryMove _ _ _ _) as [keep g'] eqn:Htry. simpl in Hst. subst g'.
  f_equal. apply (f_equal fst) in Htry. simpl in Htry. by rewrite <- Htry.
Qed.

Lemma getValidMoves_fst g pos :
  (getValidMoves pos false g).1 =
  List.filter
    (λ d, negb (isKingInCheck (probed g pos d) (moverColor g pos)))
    (patternMoves g pos).
Proof.
  unfold getValidMoves.
  rewrite (filterSt_pure _
             (λ d, negb (isKingInCheck (probed g pos d) (moverColor g pos))));
    [done|].
  intros d. apply tryMove_probed.
Qed.

(** X10.  The legal destinations are the destinations of the movement
    pattern for which, on the board with the piece lifted from its square
    and put on the destination, the mover's own king is not in check; each
    test is made on the board as it was before the call. *)
Theorem getValidMoves_filters_by_own_king_safety
    (g : ChessGame) (pos : Position) :
  (getValidMoves pos false g).1 =
  List.filter
    (λ d, negb (isKingInCheck (probed g pos d) (moverColor g pos)))
    (patternMoves g pos).
Proof. apply getValidMoves_fst. Qed.

(** X11.  Before the own-king filter, a king on column 4 of its home row
    whose square is not attacked is offered the castling square of a side as
    soon as the right of that side is in the set, the squares between king
    and rook are empty, and the square crossed and the destination are not
    attacked. *)
Theorem castling_destination_offered (g : ChessGame) (pos : Position) :
  cellAt (board g) (row pos) (col pos) = "K"
  ∨ cellAt (board g) (row pos) (col pos) = "k" →
  let white := bool_decide (cellAt (board g) (row pos) (col pos) = "K") in
  let kingRow := if white then 7 else 0 in
  let opponent := if white then Black else White in
  pos = mkPos kingRow 4 →
  isSquareAttacked g pos opponent = false →
  (castlingSide g kingRow opponent (if white then "K" else "k") [5; 6] [5; 6] →
   In (mkPos kingRow 6) (getValidMoves pos true g).1)
  ∧ (castlingSide g kingRow opponent (if white then "Q" else "q")
       [1; 2; 3] [2; 3] →
     In (mkPos kingRow 2) (getValidMoves pos true g).1).
Proof.
  intros Hking white kingRow opponent Hpos Hsafe.
  assert (patternMoves g pos = getValidKingMoves g pos) as Hpat.
  { unfold patternMoves. destruct Hking as [-> | ->]; reflexivity. }
  assert (isWhitePiece (cellAt (board g) (row pos) (col pos)) = white) as Hw.
  { subst white. destruct Hking as [-> | ->]; reflexivity. }
  unfold getValidMoves. cbn [fst]. rewrite Hpat. unfold getValidKingMoves.
  cbv zeta. rewrite Hw. fold kingRow. fold opponent.
  rewrite Hsafe.
  assert (row pos = kingRow) as Hrow by (by rewrite Hpos).
  assert (col pos = 4) as Hcol by (by rewrite Hpos).
  replace (negb (row pos =? kingRow) || negb (col pos =? 4) || false)
    with false by (rewrite Hrow, Hcol, !Z.eqb_refl; reflexivity).
  cbv iota.
  unfold castlingSide. split.
  - intros (Hr & Hempty & Hsafe').
    apply Forall_cons in Hempty as [He5 Hempty].
    apply Forall_cons in Hempty as [He6 _].
    apply Forall_cons in Hsafe' as [Hs5 Hsafe'].
    apply Forall_cons in Hsafe' as [Hs6 _].
    rewrite Hr, He5, He6, Hs5, Hs6.
    change (true && eqs "." "." && eqs "." "." && negb false && negb false)
      with true. cbv iota.
    match goal with |- In _ (if ?c then _ else _) => destruct c end;
      rewrite ?in_app_iff; cbn [In]; tauto.
  - intros (Hr & Hempty & Hsafe').
    apply Forall_cons in Hempty as [He1 Hempty].
    apply Forall_cons in Hempty as [He2 Hempty].
    apply Forall_cons in Hempty as [He3 _].
    apply Forall_cons in Hsafe' as [Hs2 Hsafe'].
    apply Forall_cons in Hsafe' as [Hs3 _].
    rewrite Hr, He1, He2, He3, Hs2, Hs3.
    change (true && eqs "." "." && eqs "." "." && eqs "." "." && negb false
            && negb false) with true. cbv iota.
    rewrite in_app_iff. cbn [In]. tauto.
Qed.

Lemma castling_destination_offered_witness :
  cellAt (board castlingGame) 7 4 = "K"
  ∧ isSquareAttacked castlingGame (sq 7 4) Black = false
  ∧ castlingSide castlingGame 7 Black "Q" [1; 2; 3] [2; 3]
  ∧ In (sq 7 2) (getValidMoves (sq 7 4) true castlingGame).1.
Proof.
  assert (castlingSide castlingGame 7 Black "Q" [1; 2; 3] [2; 3]) as Hside.
  { split; [by vm_compute|]. split; repeat constructor. }
  split; [reflexivity|]. split; [by vm_compute|]. split; [exact Hside|].
  destruct (castling_destination_offered castlingGame (sq 7 4)) as [_ Hq].
  - left. reflexivity.
  - reflexivity.
  - by vm_compute.
  - exact (Hq Hside).
Defined.

(** ** Fields that no command writes *)

(** [peel], through the conditionals between the helpers as well. *)
Ltac peel_all π Hb Hh :=
  repeat first
    [ progress (peel π Hb Hh)
    | match goal with
      | |- π (if ?c then _ else _) = _ => destruct c
      end ].

Section Kept.

Context {A : Type} (π : ChessGame → A).
Hypothesis Hboard : ignoresBoard π.
Hypothesis Hheap : ignoresHeap π.
Hypothesis HlastMove : ∀ m g, π (set_lastMove m g) = π g.
Hypothesis HmoveLog : ∀ l g, π (set_moveLog l g) = π g.
Hypothesis HredoStack : ∀ l g, π (set_redoStack l g) = π g.
Hypothesis Hrights : ∀ r g, π (set_castlingRights r g) = π g.
Hypothesis Hupdate : ∀ g, π (updateGameState g) = π g.

Lemma move_keeps fromP toP promo r g g' :
  move fromP toP promo g = Some (r, g') → π g' = π g.
Proof.
  unfold move. destruct (lookupCell _ _ _) as [piece'|]; simpl; [|done].
  destruct (eqs piece' "." || _); [by intros [= _ <-]|].
  unfold newSet. cbv zeta. intros [= _ <-].
  rewrite Hupdate, HredoStack, HmoveLog, HlastMove.
  peel_all π Hboard Hheap; apply Hheap.
Qed.

Lemma undo_keeps g : π (undo g) = π g.
Proof.
  unfold undo. destruct (last (moveLog g)) as [lastM|]; [|done].
  cbv zeta. rewrite HlastMove, HredoStack, Hrights.
  peel_all π Hboard Hheap; apply HmoveLog.
Qed.

Lemma redo_keeps g : π (redo g) = π g.
Proof.
  unfold redo. destruct (last (redoStack g)) as [mv|]; [|done].
  cbv zeta. rewrite HlastMove, HmoveLog.
  peel_all π Hboard Hheap; apply HredoStack.
Qed.

Lemma steps_keeps g g' : steps g g' → π g' = π g.
Proof.
  induction 1 as [|g g1 g2 Hstep _ IH]; [done|]. rewrite IH.
  destruct Hstep as [fromP toP promo r g1 Hmove| |];
    eauto using move_keeps, undo_keeps, redo_keeps.
Qed.

End Kept.

(** X12.  No command writes the half-move clock or the full-move number:
    through any sequence of [move], [undo] and [redo] both keep the values
    that the constructor read from the FEN string. *)
Theorem clocks_never_change (g g' : ChessGame) :
  steps g g' →
  halfMoveClock g' = halfMoveClock g ∧ fullMoveNumber g' = fullMoveNumber g.
Proof.
  intros Hsteps. split.
  - apply (steps_keeps halfMoveClock); try done.
    intros x. apply updateGameState_same.
  - apply (steps_keeps fullMoveNumber); try done.
    intros x. apply updateGameState_same.
Qed.

Lemma clocks_never_change_witness :
  let g' := stateAfter (move (sq 6 4) (sq 4 4) None initialGame) in
  steps initialGame g'
  ∧ halfMoveClock g' = 0 ∧ fullMoveNumber g' = 1.
Proof.
  intros g'.
  assert (steps initialGame g') as Hsteps.
  { eapply steps_more; [|apply steps_refl].
    eapply (step_move _ (sq 6 4) (sq 4 4) None (Some (mkResult true false))).
    vm_compute. reflexivity. }
  split; [exact Hsteps|].
  destruct (clocks_never_change _ _ Hsteps) as [H1 H2].
  split; [exact H1 | exact H2].
Defined.

(** ** What [move] writes *)

Lemma parity_succ (n : nat) :
  (S n mod 2 =? 0)%nat = negb (n mod 2 =? 0)%nat.
Proof.
  pose proof (Nat.div_mod_eq n 2). pose proof (Nat.div_mod_eq (S n) 2).
  pose proof (Nat.mod_upper_bound n 2). pose proof (Nat.mod_upper_bound (S n) 2).
  destruct (Nat.eqb_spec (S n mod 2) 0), (Nat.eqb_spec (n mod 2) 0);
    simpl; try done; lia.
Qed.

(** X13.  A call of [move] that does not return null appends one record to
    the move log, makes it the last move, empties the redo stack and passes
    the turn.  The record holds the two squares of the call and the piece
    that stood on the from-square (the pawn itself when it promotes). *)
Theorem move_logs_the_move
    (fromP toP : Position) (promo : option string) (r : MoveResult)
    (g g' : ChessGame) :
  move fromP toP promo g = Some (Some r, g') →
  ∃ mv,
    moveLog g' = moveLog g ++ [mv]
    ∧ lastMove g' = Some mv
    ∧ redoStack g' = []
    ∧ from mv = fromP ∧ to mv = toP
    ∧ lookupCell (board g) (row fromP) (col fromP) = Some (piece mv)
    ∧ sideToMove g' = opposite (sideToMove g).
Proof.
  unfold move.
  destruct (lookupCell _ _ _) as [piece'|] eqn:Hp; cbn [mbind option_bind];
    [|done].
  destruct (eqs piece' "." || _); [done|].
  unfold newSet. cbv zeta. intros [= _ <-].
  unfold sideToMove.
  match goal with |- context [updateGameState ?x] =>
    destruct (updateGameState_same x) as (_ & -> & -> & -> & _)
  end.
  cbn [moveLog lastMove redoStack set_redoStack set_moveLog set_lastMove].
  match goal with |- context [moveLog ?Y ++ [mkMove _ _ _ ?c ?rb]] =>
    assert (moveLog Y = moveLog g) as Hlog;
      [peel_all moveLog moveLog_ignoresBoard moveLog_ignoresHeap; reflexivity|];
    generalize dependent Y; generalize c; generalize rb
  end.
  intros rb c Y Hlog. rewrite Hlog.
  exists (mkMove fromP toP piece' c rb).
  split; [reflexivity|]. split; [reflexivity|]. split; [reflexivity|].
  split; [reflexivity|]. split; [reflexivity|]. split; [reflexivity|].
  rewrite length_app, Nat.add_1_r, parity_succ.
  by destruct (_ =? _)%nat.
Qed.

Lemma move_logs_the_move_witness :
  let after := move (sq 6 4) (sq 4 4) None initialGame in
  after = Some (Some (mkResult true false), stateAfter after)
  ∧ ∃ mv, lastMove (stateAfter after) = Some mv
          ∧ from mv = sq 6 4 ∧ to mv = sq 4 4
          ∧ sideToMove (stateAfter after) = opposite (sideToMove initialGame).
Proof.
  intros after.
  assert (after = Some (Some (mkResult true false), stateAfter after))
    as Hafter by (vm_compute; reflexivity).
  split; [exact Hafter|].
  destruct (move_logs_the_move (sq 6 4) (sq 4 4) None (mkResult true false)
              initialGame (stateAfter after) Hafter)
    as (mv & _ & Hlast & _ & Hfrom & Hto & _ & Hside).
  exists mv. split; [exact Hlast|]. split; [exact Hfrom|].
  split; [exact Hto|exact Hside].
Defined.

(** ** Castling rights only shrink *)

Lemma rightsOf_deleteRight r g :
  rightsOf (deleteRight r g) = rightsOf g ∖ {[r]}.
Proof.
  unfold rightsOf, deleteRight. simpl.
  rewrite list_lookup_alter. case_decide; [|done].
  destruct (heap g !! castlingRights g); simpl; [done|].
  by rewrite empty_difference_L.
Qed.

Lemma rightsOf_newSet g :
  rightsOf (set_heap (heap g ++ [rightsOf g]) g) = rightsOf g.
Proof.
  unfold rightsOf at 1. simpl.
  destruct (decide (castlingRights g < length (heap g))%nat) as [Hlt|Hge].
  - by rewrite lookup_app_l.
  - rewrite lookup_app_r by lia.
    assert (rightsOf g = ∅) as Hempty.
    { unfold rightsOf. rewrite lookup_ge_None_2; [done|lia]. }
    rewrite Hempty.
    destruct (castlingRights g - length (heap g))%nat as [|n]; [done|].
    by destruct n.
Qed.

Lemma rightsOf_updateGameState g : rightsOf (updateGameState g) = rightsOf g.
Proof.
  unfold rightsOf.
  by destruct (updateGameState_same g) as (_ & _ & _ & _ & -> & -> & _).
Qed.

Lemma rightsOf_ignoresBoard : ignoresBoard rightsOf.
Proof. by intros b g. Qed.

Section Shrink.

Variable Φ : gset string → Prop.
Hypothesis Hdown : ∀ s s', s' ⊆ s → Φ s → Φ s'.

Let holds (g : ChessGame) : Prop := Φ (rightsOf g).

Lemma shrink_deleteRight r g : holds g → holds (deleteRight r g).
Proof.
  unfold holds. rewrite rightsOf_deleteRight. apply Hdown.
  by apply subseteq_difference_l.
Qed.

Lemma shrink_write r c v g : holds g → holds (write r c v g).
Proof. done. Qed.

Lemma shrink_castleRook r c g : holds g → holds (castleRook r c g).
Proof. intros Hg. unfold castleRook. by repeat case_match. Qed.

Lemma shrink_when c f g :
  (∀ x, holds x → holds (f x)) → holds g → holds (when c f g).
Proof. intros Hf Hg. unfold when. destruct c; auto. Qed.

End Shrink.

(** Carries a downward-closed property of the rights through the helpers
    of [move] and [redo]. *)
Ltac shrink_tac Φ Hdown :=
  repeat first
    [ apply (shrink_when Φ);
      [ intros ? ?;
        first [ by apply (shrink_deleteRight Φ Hdown)
              | by apply (shrink_castleRook Φ)
              | by apply (shrink_write Φ) ] | ]
    | apply (shrink_deleteRight Φ Hdown)
    | apply (shrink_castleRook Φ)
    | apply (shrink_write Φ)
    | match goal with
      | |- _ (rightsOf (if ?c then _ else _)) => destruct c
      end ].

Lemma move_shrinks (Φ : gset string → Prop) fromP toP promo r g g' :
  (∀ s s', s' ⊆ s → Φ s → Φ s') →
  Φ (rightsOf g) → move fromP toP promo g = Some (r, g') → Φ (rightsOf g').
Proof.
  intros Hdown Hg. unfold move.
  destruct (lookupCell _ _ _) as [piece'|]; simpl; [|done].
  destruct (eqs piece' "." || _); [by intros [= _ <-]|].
  unfold newSet. cbv zeta. intros [= _ <-].
  rewrite rightsOf_updateGameState.
  change (rightsOf (set_redoStack ?l ?x)) with (rightsOf x).
  change (rightsOf (set_moveLog ?l ?x)) with (rightsOf x).
  change (rightsOf (set_lastMove ?l ?x)) with (rightsOf x).
  shrink_tac Φ Hdown.
  all: by rewrite rightsOf_newSet.
Qed.

Lemma redo_shrinks (Φ : gset string → Prop) g :
  (∀ s s', s' ⊆ s → Φ s → Φ s') → Φ (rightsOf g) → Φ (rightsOf (redo g)).
Proof.
  intros Hdown Hg. unfold redo.
  destruct (last (redoStack g)) as [mv|]; [|done]. cbv zeta.
  change (rightsOf (set_lastMove ?l ?x)) with (rightsOf x).
  change (rightsOf (set_moveLog ?l ?x)) with (rightsOf x).
  shrink_tac Φ Hdown.
  all: exact Hg.
Qed.

(** X14.  Neither [move] nor [redo] ever adds a castling right: the set
    after the call is included in the set before it. *)
Theorem move_and_redo_never_add_rights
    (fromP toP : Position) (promo : option string)
    (r : option MoveResult) (g g' : ChessGame) :
  move fromP toP promo g = Some (r, g') →
  rightsOf g' ⊆ rightsOf g ∧ rightsOf (redo g) ⊆ rightsOf g.
Proof.
  intros Hmove.
  assert (∀ s s' : gset string,
            s' ⊆ s → s ⊆ rightsOf g → s' ⊆ rightsOf g) as Hdown.
  { intros s s' Hs' Hs. by transitivity s. }
  split.
  - by apply (move_shrinks (λ s, s ⊆ rightsOf g) fromP toP promo r g g' Hdown).
  - by apply (redo_shrinks (λ s, s ⊆ rightsOf g) g Hdown).
Qed.

Lemma move_and_redo_never_add_rights_witness :
  let after := move (sq 6 4) (sq 4 4) None initialGame in
  after = Some (Some (mkResult true false), stateAfter after)
  ∧ rightsOf (stateAfter after) ⊆ rightsOf initialGame.
Proof.
  intros after.
  assert (after = Some (Some (mkResult true false), stateAfter after))
    as Hafter by (vm_compute; reflexivity).
  split; [exact Hafter|].
  exact (proj1 (move_and_redo_never_add_rights (sq 6 4) (sq 4 4) None
                  (Some (mkResult true false)) initialGame (stateAfter after)
                  Hafter)).
Defined.

Lemma king_move_clears (Φ : gset string → Prop) (king a b : string)
    fromP toP promo r g g' :
  (∀ s s', s' ⊆ s → Φ s → Φ s') →
  (∀ s, Φ (s ∖ {[a]} ∖ {[b]})) →
  (king = "K" ∧ a = "K" ∧ b = "Q") ∨ (king = "k" ∧ a = "k" ∧ b = "q") →
  lookupCell (board g) (row fromP) (col fromP) = Some king →
  move fromP toP promo g = Some (Some r, g') →
  Φ (rightsOf g').
Proof.
  intros Hdown HΦ Hking Hcell. unfold move. rewrite Hcell.
  cbn [mbind option_bind].
  destruct (eqs king "." || _); [done|].
  unfold newSet. cbv zeta. intros [= _ <-].
  rewrite rightsOf_updateGameState.
  change (rightsOf (set_redoStack ?l ?x)) with (rightsOf x).
  change (rightsOf (set_moveLog ?l ?x)) with (rightsOf x).
  change (rightsOf (set_lastMove ?l ?x)) with (rightsOf x).
  repeat (apply (shrink_when Φ);
          [intros ? ?; by apply (shrink_deleteRight Φ Hdown)|]).
  destruct Hking as [(-> & -> & ->)|(-> & -> & ->)].
  - change (eqs "K" "K") with true. cbv iota.
    rewrite !rightsOf_deleteRight. apply HΦ.
  - change (eqs "k" "K") with false. change (eqs "k" "k") with true.
    cbv iota. rewrite !rightsOf_deleteRight. apply HΦ.
Qed.

(** X15.  After any call of [move] that moves a king (castling or not),
    neither right of that colour is in the set. *)
Theorem king_move_clears_both_rights
    (fromP toP : Position) (promo : option string) (r : MoveResult)
    (g g' : ChessGame) :
  move fromP toP promo g = Some (Some r, g') →
  (lookupCell (board g) (row fromP) (col fromP) = Some "K" →
   ("K" ∉ rightsOf g') ∧ ("Q" ∉ rightsOf g'))
  ∧ (lookupCell (board g) (row fromP) (col fromP) = Some "k" →
     ("k" ∉ rightsOf g') ∧ ("q" ∉ rightsOf g')).
Proof.
  intros Hmove. split; intros Hcell.
  - apply (king_move_clears (λ s, ("K" ∉ s) ∧ ("Q" ∉ s)) "K" "K" "Q"
             fromP toP promo r g g'); try done.
    + intros s s' Hs [HK HQ]. split; intros Hin; [apply HK | apply HQ];
        by apply Hs.
    + intros s. split; intros Hin%elem_of_difference.
      * destruct Hin as [Hin%elem_of_difference _].
        destruct Hin as [_ Hin]. apply Hin. by apply elem_of_singleton.
      * destruct Hin as [_ Hin]. apply Hin. by apply elem_of_singleton.
    + by left.
  - apply (king_move_clears (λ s, ("k" ∉ s) ∧ ("q" ∉ s)) "k" "k" "q"
             fromP toP promo r g g'); try done.
    + intros s s' Hs [HK HQ]. split; intros Hin; [apply HK | apply HQ];
        by apply Hs.
    + intros s. split; intros Hin%elem_of_difference.
      * destruct Hin as [Hin%elem_of_difference _].
        destruct Hin as [_ Hin]. apply Hin. by apply elem_of_singleton.
      * destruct Hin as [_ Hin]. apply Hin. by apply elem_of_singleton.
    + by right.
Qed.

Lemma king_move_clears_both_rights_witness :
  let after := move (sq 7 4) (sq 6 4) None kingStepGame in
  after = Some (Some (mkResult true false), stateAfter after)
  ∧ lookupCell (board kingStepGame) 7 4 = Some "K"
  ∧ ("K" ∉ rightsOf (stateAfter after)) ∧ ("Q" ∉ rightsOf (stateAfter after)).
Proof.
  intros after.
  assert (after = Some (Some (mkResult true false), stateAfter after))
    as Hafter by (vm_compute; reflexivity).
  assert (lookupCell (board kingStepGame) 7 4 = Some "K") as Hcell
    by (vm_compute; reflexivity).
  split; [exact Hafter|]. split; [exact Hcell|].
  exact (proj1 (king_move_clears_both_rights (sq 7 4) (sq 6 4) None
                  (mkResult true false) kingStepGame (stateAfter after)
                  Hafter) Hcell).
Defined.

(** ** What [move] does to the board *)

Lemma write_board_cong r c v g1 g2 :
  board g1 = board g2 → board (write r c v g1) = board (write r c v g2).
Proof. unfold write. simpl. by intros ->. Qed.

Lemma castleRook_board_cong r c g1 g2 :
  board g1 = board g2 →
  board (castleRook r c g1) = board (castleRook r c g2).
Proof.
  intros H. unfold castleRook.
  repeat case_match; try done; rewrite H;
    by repeat apply write_board_cong.
Qed.

Lemma when_board_cong c f g1 g2 :
  (∀ x y, board x = board y → board (f x) = board (f y)) →
  board g1 = board g2 → board (when c f g1) = board (when c f g2).
Proof. intros Hf H. unfold when. destruct c; auto. Qed.

(** The board after a call of [move] that does not return null: the
    en passant removal, the two writes and the rook's part of castling,
    applied to the board before the call. *)
Lemma move_board fromP toP promo r g g' piece' :
  lookupCell (board g) (row fromP) (col fromP) = Some piece' →
  move fromP toP promo g = Some (Some r, g') →
  isInBounds (row toP) (col toP) = true
  ∧ board g' =
    board
      (when (castles piece' fromP toP) (castleRook (row fromP) (col toP))
         (write (row fromP) (col fromP) "."
            (write (row toP) (col toP) (pieceToPlace piece' toP promo)
               (when (capturesEnPassant g fromP toP piece')
                  (write
                     (if eqs piece' "P" then row toP + 1 else row toP - 1)
                     (col toP) ".")
                  g)))).
Proof.
  intros Hcell. unfold move. rewrite Hcell. cbn [mbind option_bind].
  destruct (eqs piece' "."); [done|].
  destruct (isInBounds (row toP) (col toP)); [|done].
  cbn [negb orb]. unfold newSet. cbv zeta. intros [= _ <-].
  split; [done|].
  rewrite updateGameState_board.
  change (board (set_redoStack ?l ?x)) with (board x).
  change (board (set_moveLog ?l ?x)) with (board x).
  change (board (set_lastMove ?l ?x)) with (board x).
  unfold castles, capturesEnPassant, pieceToPlace, promotedLetter.
  cbv zeta.
  peel_all board I board_ignoresHeap.
  all: apply when_board_cong; [intros; by apply castleRook_board_cong|].
  all: repeat apply write_board_cong.
  all: by (apply when_board_cong; [intros; by apply write_board_cong|]).
Qed.

(** X16.  A call of [move] that neither castles nor captures en passant
    changes two squares only: the destination receives the piece (the
    promotion letter for a pawn on the farthest rank) and the from-square
    becomes empty; the status refresh and the bookkeeping of the rights
    leave the board alone. *)
Theorem ordinary_move_writes_two_squares
    (fromP toP : Position) (promo : option string) (r : MoveResult)
    (g g' : ChessGame) (piece' : string) :
  lookupCell (board g) (row fromP) (col fromP) = Some piece' →
  move fromP toP promo g = Some (Some r, g') →
  castles piece' fromP toP = false →
  capturesEnPassant g fromP toP piece' = false →
  board g' =
  setCell
    (setCell (board g) (row toP) (col toP) (pieceToPlace piece' toP promo))
    (row fromP) (col fromP) ".".
Proof.
  intros Hcell Hmove Hcastle Hep.
  destruct (move_board _ _ _ _ _ _ _ Hcell Hmove) as [_ ->].
  by rewrite Hcastle, Hep.
Qed.

Lemma ordinary_move_writes_two_squares_witness :
  let after := move (sq 7 6) (sq 5 5) None initialGame in
  lookupCell (board initialGame) 7 6 = Some "N"
  ∧ after = Some (Some (mkResult true false), stateAfter after)
  ∧ board (stateAfter after) =
    setCell (setCell (board initialGame) 5 5 "N") 7 6 ".".
Proof.
  intros after.
  assert (lookupCell (board initialGame) 7 6 = Some "N") as Hcell
    by (vm_compute; reflexivity).
  assert (after = Some (Some (mkResult true false), stateAfter after))
    as Hafter by (vm_compute; reflexivity).
  split; [exact Hcell|]. split; [exact Hafter|].
  exact (ordinary_move_writes_two_squares (sq 7 6) (sq 5 5) None
           (mkResult true false) initialGame (stateAfter after) "N"
           Hcell Hafter eq_refl eq_refl).
Defined.

(** X17.  When a king on column 4 is moved two columns, [move] also
    relocates what stands on the corner of the king's row: to column 6 the
    content of column 7 goes to column 5, to column 2 the content of column 0
    goes to column 3, and the corner becomes empty. *)
Theorem castling_move_relocates_the_rook
    (fromP toP : Position) (promo : option string) (r : MoveResult)
    (g g' : ChessGame) (king : string) :
  lookupCell (board g) (row fromP) (col fromP) = Some king →
  king = "K" ∨ king = "k" →
  col fromP = 4 →
  move fromP toP promo g = Some (Some r, g') →
  let kingMoved :=
    setCell (setCell (board g) (row toP) (col toP) king)
      (row fromP) (col fromP) "." in
  (col toP = 6 →
   board g' =
   setCell
     (setCell kingMoved (row fromP) 5 (cellAt (board g) (row fromP) 7))
     (row fromP) 7 ".")
  ∧ (col toP = 2 →
     board g' =
     setCell
       (setCell kingMoved (row fromP) 3 (cellAt (board g) (row fromP) 0))
       (row fromP) 0 ".").
Proof.
  intros Hcell Hking Hcol Hmove kingMoved.
  destruct (move_board _ _ _ _ _ _ _ Hcell Hmove) as [_ Hboard].
  assert (capturesEnPassant g fromP toP king = false) as Hep.
  { unfold capturesEnPassant. by destruct Hking as [-> | ->]. }
  assert (pieceToPlace king toP promo = king) as Hplace.
  { unfold pieceToPlace. by destruct Hking as [-> | ->]. }
  rewrite Hep, Hplace in Hboard. unfold when at 2 in Hboard.
  split; intros Hto.
  - assert (castles king fromP toP = true) as Hc.
    { unfold castles. rewrite Hcol, Hto. by destruct Hking as [-> | ->]. }
    rewrite Hc in Hboard. unfold when, castleRook in Hboard.
    replace (col toP =? 6) with true in Hboard
      by (symmetry; apply Z.eqb_eq; lia).
    simpl in Hboard. rewrite Hboard.
    fold kingMoved. do 2 f_equal. subst kingMoved.
    rewrite !cellAt_setCell_other by lia. reflexivity.
  - assert (castles king fromP toP = true) as Hc.
    { unfold castles. rewrite Hcol, Hto. by destruct Hking as [-> | ->]. }
    rewrite Hc in Hboard. unfold when, castleRook in Hboard.
    replace (col toP =? 6) with false in Hboard
      by (symmetry; apply Z.eqb_neq; lia).
    replace (col toP =? 2) with true in Hboard
      by (symmetry; apply Z.eqb_eq; lia).
    simpl in Hboard. rewrite Hboard.
    fold kingMoved. do 2 f_equal. subst kingMoved.
    rewrite !cellAt_setCell_other by lia. reflexivity.
Qed.

Lemma castling_move_relocates_the_rook_witness :
  let after := move (sq 7 4) (sq 7 6) None castlingGame in
  lookupCell (board castlingGame) 7 4 = Some "K"
  ∧ after = Some (Some (mkResult true true), stateAfter after)
  ∧ (board (stateAfter after) !! 7%nat)
    = Some ["R"; "."; "."; "."; "."; "R"; "K"; "."].
Proof.
  intros after.
  assert (lookupCell (board castlingGame) 7 4 = Some "K") as Hcell
    by (vm_compute; reflexivity).
  assert (after = Some (Some (mkResult true true), stateAfter after))
    as Hafter by (vm_compute; reflexivity).
  split; [exact Hcell|]. split; [exact Hafter|].
  rewrite (proj1 (castling_move_relocates_the_rook (sq 7 4) (sq 7 6) None
                    (mkResult true true) castlingGame (stateAfter after) "K"
                    Hcell (or_introl eq_refl) eq_refl Hafter) eq_refl).
  vm_compute. reflexivity.
Defined.



(** ** What [undo] restores after [move] *)

(** The record that a call of [move] logs. *)
Lemma move_record fromP toP promo r g g' piece' :
  lookupCell (board g) (row fromP) (col fromP) = Some piece' →
  move fromP toP promo g = Some (Some r, g') →
  ∃ rb,
    moveLog g' = moveLog g ++
      [mkMove fromP toP piece'
         (Some (if capturesEnPassant g fromP toP piece'
                then cellAt (board g)
                       (if eqs piece' "P" then row toP + 1 else row toP - 1)
                       (col toP)
                else cellAt (board g) (row toP) (col toP)))
         rb].
Proof.
  intros Hcell. unfold move. rewrite Hcell. cbn [mbind option_bind].
  destruct (eqs piece' "." || _); [done|].
  unfold newSet. cbv zeta. intros [= _ <-].
  match goal with |- context [updateGameState ?x] =>
    destruct (updateGameState_same x) as (_ & _ & -> & _)
  end.
  cbn [moveLog set_redoStack set_moveLog set_lastMove].
  match goal with |- context [moveLog ?Y ++ [mkMove _ _ _ _ ?rb]] =>
    assert (moveLog Y = moveLog g) as Hlog;
      [peel_all moveLog moveLog_ignoresBoard moveLog_ignoresHeap; reflexivity|];
    rewrite Hlog; exists rb
  end.
  reflexivity.
Qed.

Lemma realCapture_false_dot (b : Board) r c :
  cellsNonEmpty b → is_Some (lookupCell b r c) →
  realCapture (Some (cellAt b r c)) = false → cellAt b r c = ".".
Proof.
  intros Hne [x Hx]. unfold cellAt. rewrite Hx. simpl.
  apply Hne in Hx. unfold truthy, eqs.
  destruct (String.eqb_spec x ""); [done|]. simpl.
  destruct (String.eqb_spec x "."); done.
Qed.

(** The writes of [move] followed by the writes of [undo], for a call that
    neither castles nor captures en passant. *)
Lemma undo_writes_cancel (b : Board) rf cf rt ct placed :
  setCell
    (setCell
       (setCell (setCell (setCell b rt ct placed) rf cf ".") rf cf
          (cellAt b rf cf))
       rt ct ".")
    rt ct (cellAt b rt ct) = b.
Proof.
  rewrite setCell_overwrite.
  rewrite (setCell_overwrite _ rf cf).
  destruct (decide (rf = rt ∧ cf = ct)) as [[-> ->]|Hne].
  - rewrite !setCell_overwrite. apply setCell_same.
  - rewrite (setCell_swap _ rf cf _ rt ct) by lia.
    rewrite setCell_overwrite, setCell_same. apply setCell_same.
Qed.

(** X19.  On an 8 by 8 board of non-empty cells, [undo] after a call of
    [move] that neither castles nor captures en passant puts the board back
    exactly (promotions and ordinary captures included), unless the call was
    a capture by a white pawn from row 3 to row 2 or by a black pawn from
    row 4 to row 5. *)
Theorem undo_restores_the_board_after_move
    (fromP toP : Position) (promo : option string) (r : MoveResult)
    (g g' : ChessGame) (piece' : string) :
  wf_board (board g) →
  cellsNonEmpty (board g) →
  lookupCell (board g) (row fromP) (col fromP) = Some piece' →
  move fromP toP promo g = Some (Some r, g') →
  castles piece' fromP toP = false →
  capturesEnPassant g fromP toP piece' = false →
  enPassantShape piece' fromP toP = false
  ∨ cellAt (board g) (row toP) (col toP) = "." →
  board (undo g') = board g.
Proof.
  intros Hwf Hne Hcell Hmove Hcastle Hep Hshape.
  destruct (move_record _ _ _ _ _ _ _ Hcell Hmove) as (rb & Hlog).
  destruct (move_board _ _ _ _ _ _ _ Hcell Hmove) as [Hto Hboard].
  rewrite Hcastle, Hep in Hboard. rewrite Hep in Hlog.
  unfold when, write in Hboard.
  simpl in Hboard.
  destruct (wf_board_lookup _ _ _ Hwf Hto) as [target Htarget].
  assert (cellAt (board g) (row fromP) (col fromP) = piece') as Hpiece.
  { unfold cellAt. by rewrite Hcell. }
  unfold undo. rewrite Hlog, last_snoc. cbv zeta.
  change (board (set_lastMove ?l ?x)) with (board x).
  change (board (set_redoStack ?l ?x)) with (board x).
  change (board (set_castlingRights ?l ?x)) with (board x).
  cbn [from to piece captured].
  fold (castles piece' fromP toP). rewrite Hcastle.
  unfold when, write. cbn [board set_board set_moveLog default].
  rewrite Hboard.
  destruct (realCapture _) eqn:Hreal.
  - match goal with |- board (if ?c then _ else _) = _ =>
      destruct c eqn:Hcode
    end; cbn [board set_board].
    + exfalso.
      assert (enPassantShape piece' fromP toP = true) as Hs.
      { unfold enPassantShape.
        apply orb_prop in Hcode as [Hcode|Hcode];
          apply andb_prop in Hcode as [Hcode _];
          apply andb_prop in Hcode as [Hcode Habs];
          apply andb_prop in Hcode as [Hcode Hrt];
          apply andb_prop in Hcode as [Hp Hrf];
          rewrite Hp, Hrf, Hrt, Habs; simpl; by rewrite ?orb_true_r. }
      destruct Hshape as [Hshape|Hdot]; [congruence|].
      rewrite Hdot in Hreal. done.
    + rewrite <- Hpiece at 2. apply undo_writes_cancel.
  - cbn [board set_board].
    apply realCapture_false_dot in Hreal; [|done|by eexists].
    symmetry. etransitivity.
    { symmetry.
      apply (undo_writes_cancel _ (row fromP) (col fromP) (row toP) (col toP)
               (pieceToPlace piece' toP promo)). }
    by rewrite setCell_overwrite, Hreal, Hpiece.
Qed.

Lemma cellsNonEmpty_Forall (b : Board) :
  Forall (Forall (λ x, x ≠ "")) b → cellsNonEmpty b.
Proof.
  intros Hall r c x Hx. unfold lookupCell in Hx.
  destruct ((0 <=? r) && (0 <=? c)); [|done].
  destruct (b !! Z.to_nat r) as [cells|] eqn:Hb; simpl in Hx; [|done].
  rewrite Forall_lookup in Hall. specialize (Hall _ _ Hb).
  rewrite Forall_lookup in Hall. by apply (Hall _ _ Hx).
Qed.

Lemma cellsNonEmpty_initialGame : cellsNonEmpty (board initialGame).
Proof.
  apply cellsNonEmpty_Forall. vm_compute.
  repeat first [ apply Forall_cons_2 | apply Forall_nil_2 | discriminate ].
Defined.

Lemma undo_restores_the_board_after_move_witness :
  let after := move (sq 7 6) (sq 5 5) None initialGame in
  wf_board (board initialGame)
  ∧ cellsNonEmpty (board initialGame)
  ∧ lookupCell (board initialGame) 7 6 = Some "N"
  ∧ after = Some (Some (mkResult true false), stateAfter after)
  ∧ board (undo (stateAfter after)) = board initialGame.
Proof.
  intros after.
  assert (lookupCell (board initialGame) 7 6 = Some "N") as Hcell
    by (vm_compute; reflexivity).
  assert (after = Some (Some (mkResult true false), stateAfter after))
    as Hafter by (vm_compute; reflexivity).
  split; [exact wf_board_initialGame|].
  split; [exact cellsNonEmpty_initialGame|].
  split; [exact Hcell|]. split; [exact Hafter|].
  exact (undo_restores_the_board_after_move (sq 7 6) (sq 5 5) None
           (mkResult true false) initialGame (stateAfter after) "N"
           wf_board_initialGame cellsNonEmpty_initialGame Hcell Hafter
           eq_refl eq_refl (or_introl eq_refl)).
Defined.

(** X20.  When the reference to the castling rights points into the store,
    [undo] after a call of [move] that does not return null gives back the
    castling rights and the move log of before the call, and the last move
    becomes the tail of that log. *)
Theorem undo_restores_rights_and_log_after_move
    (fromP toP : Position) (promo : option string) (r : MoveResult)
    (g g' : ChessGame) :
  validRights g →
  move fromP toP promo g = Some (Some r, g') →
  rightsOf (undo g') = rightsOf g
  ∧ lastMove (undo g') = last (moveLog g)
  ∧ moveLog (undo g') = moveLog g.
Proof. apply move_then_undo. Qed.

Lemma undo_restores_rights_and_log_after_move_witness :
  let after := move (sq 7 4) (sq 6 4) None kingStepGame in
  validRights kingStepGame
  ∧ after = Some (Some (mkResult true false), stateAfter after)
  ∧ rightsOf (undo (stateAfter after)) = rightsOf kingStepGame
  ∧ moveLog (undo (stateAfter after)) = moveLog kingStepGame.
Proof.
  intros after.
  assert (validRights kingStepGame) as Hvalid by (vm_compute; lia).
  assert (after = Some (Some (mkResult true false), stateAfter after))
    as Hafter by (vm_compute; reflexivity).
  split; [exact Hvalid|]. split; [exact Hafter|].
  destruct (undo_restores_rights_and_log_after_move (sq 7 4) (sq 6 4) None
              (mkResult true false) kingStepGame (stateAfter after)
              Hvalid Hafter) as (Hrights & _ & Hlog).
  split; [exact Hrights | exact Hlog].
Defined.

(** ** The two stacks of moves *)

Lemma redoStack_ignoresBoard : ignoresBoard redoStack.
Proof. by intros b g. Qed.

Lemma redoStack_ignoresHeap : ignoresHeap redoStack.
Proof. by intros h g. Qed.

Lemma undo_stacks g mv :
  last (moveLog g) = Some mv →
  moveLog (undo g) = removelast (moveLog g)
  ∧ redoStack (undo g) = redoStack g ++ [mv]
  ∧ lastMove (undo g) = last (removelast (moveLog g)).
Proof.
  intros Hlast. unfold undo. rewrite Hlast. cbv zeta.
  cbn [moveLog redoStack lastMove set_lastMove set_redoStack
       set_castlingRights].
  assert (∀ X : ChessGame,
            moveLog X = removelast (moveLog g) → redoStack X = redoStack g →
            moveLog X = removelast (moveLog g)
            ∧ redoStack X ++ [mv] = redoStack g ++ [mv]
            ∧ last (moveLog X) = last (removelast (moveLog g))) as Hgen.
  { intros X -> ->. done. }
  apply Hgen.
  - peel_all moveLog moveLog_ignoresBoard moveLog_ignoresHeap; reflexivity.
  - peel_all redoStack redoStack_ignoresBoard redoStack_ignoresHeap;
      reflexivity.
Qed.

Lemma redo_stacks g mv :
  last (redoStack g) = Some mv →
  moveLog (redo g) = moveLog g ++ [mv]
  ∧ redoStack (redo g) = removelast (redoStack g)
  ∧ lastMove (redo g) = Some mv.
Proof.
  intros Hlast. unfold redo. rewrite Hlast. cbv zeta.
  cbn [moveLog redoStack lastMove set_lastMove set_moveLog].
  assert (∀ X : ChessGame,
            moveLog X = moveLog g → redoStack X = removelast (redoStack g) →
            moveLog X ++ [mv] = moveLog g ++ [mv]
            ∧ redoStack X = removelast (redoStack g)
            ∧ Some mv = Some mv) as Hgen.
  { intros X -> ->. done. }
  apply Hgen.
  - peel_all moveLog moveLog_ignoresBoard moveLog_ignoresHeap; reflexivity.
  - peel_all redoStack redoStack_ignoresBoard redoStack_ignoresHeap;
      reflexivity.
Qed.

(** X21.  With at least one move in the log, [undo] takes the last record
    off the log and puts it on the redo stack, and [redo] brings both stacks
    back: after [undo] then [redo] the move log and the redo stack are what
    they were and the last move is the tail of the log. *)
Theorem redo_after_undo_restores_the_stacks (g : ChessGame) :
  moveLog g ≠ [] →
  length (moveLog (undo g)) = (length (moveLog g) - 1)%nat
  ∧ length (redoStack (undo g)) = S (length (redoStack g))
  ∧ moveLog (redo (undo g)) = moveLog g
  ∧ redoStack (redo (undo g)) = redoStack g
  ∧ lastMove (redo (undo g)) = last (moveLog g).
Proof.
  intros Hne.
  destruct (exists_last Hne) as (l & mv & Hl).
  assert (last (moveLog g) = Some mv) as Hlast by (by rewrite Hl, last_snoc).
  destruct (undo_stacks g mv Hlast) as (Hlog & Hredo & _).
  assert (last (redoStack (undo g)) = Some mv) as Hlast'
    by (by rewrite Hredo, last_snoc).
  destruct (redo_stacks (undo g) mv Hlast') as (Hlog' & Hredo' & Hlm).
  rewrite Hlog', Hredo', Hlm, Hlog, Hredo, Hl, !removelast_last, last_snoc.
  rewrite !length_app. simpl. repeat split; lia.
Qed.

Lemma redo_after_undo_restores_the_stacks_witness :
  moveLog kingStepGame ≠ []
  ∧ moveLog (redo (undo kingStepGame)) = moveLog kingStepGame.
Proof.
  assert (moveLog kingStepGame ≠ []) as Hne by (vm_compute; discriminate).
  split; [exact Hne|].
  exact (proj1 (proj2 (proj2
           (redo_after_undo_restores_the_stacks kingStepGame Hne)))).
Defined.

(** ** The end-of-game fields after a move *)

Lemma collectMoves_fst pieces g :
  (collectMoves pieces g).1 =
  flat_map (λ pp, map (λ t, (pp.2, t, cellAt (board g) (row pp.2) (col pp.2)))
                    (getValidMoves pp.2 false g).1) pieces.
Proof.
  induction pieces as [|[p pos] rest IH]; [done|]. cbn [collectMoves flat_map snd].
  pose proof (getValidMoves_state pos false g) as Hg.
  destruct (getValidMoves pos false g) as [moves g1]. simpl in Hg. subst g1.
  destruct (collectMoves rest g) as [others g2]. cbn [fst snd] in *.
  by rewrite IH.
Qed.

Lemma getAllValidMoves_fst c g :
  (getAllValidMoves c g).1 =
  flat_map (λ pp, map (λ t, (pp.2, t, cellAt (board g) (row pp.2) (col pp.2)))
                    (List.filter
                       (λ d, negb (isKingInCheck (probed g pp.2 d)
                                     (moverColor g pp.2)))
                       (patternMoves g pp.2)))
    (getPieces g c).
Proof.
  unfold getAllValidMoves. rewrite collectMoves_fst.
  apply flat_map_ext. intros pp. by rewrite getValidMoves_fst.
Qed.

(** The moves of a side depend on the board, the last move and the
    castling rights only. *)
Lemma getAllValidMoves_sameGame c g g' :
  sameGame g g' → (getAllValidMoves c g').1 = (getAllValidMoves c g).1.
Proof.
  intros Hsame. rewrite !getAllValidMoves_fst.
  destruct g, g'. unfold sameGame in Hsame. simpl in Hsame.
  destruct Hsame as (-> & -> & -> & -> & -> & -> & -> & -> & ->).
  reflexivity.
Qed.

Lemma isKingInCheck_sameGame c g g' :
  sameGame g g' → isKingInCheck g' c = isKingInCheck g c.
Proof.
  intros Hsame.
  destruct g, g'. unfold sameGame in Hsame. simpl in Hsame.
  destruct Hsame as (-> & -> & -> & -> & -> & -> & -> & -> & ->).
  reflexivity.
Qed.

Lemma findKing_sameGame c g g' :
  sameGame g g' → findKing g' c = findKing g c.
Proof. intros (Hb & _). unfold findKing. by rewrite Hb. Qed.

Lemma sideToMove_sameGame g g' :
  sameGame g g' → sideToMove g' = sideToMove g.
Proof. intros (_ & _ & Hlog & _). unfold sideToMove. by rewrite Hlog. Qed.

Lemma updateGameState_check g :
  isCheck (updateGameState g) = isKingInCheck g (sideToMove g)
  ∧ checkKingPosition (updateGameState g) =
    (if isKingInCheck g (sideToMove g) then findKing g (sideToMove g)
     else None).
Proof.
  unfold updateGameState, sideToMove.
  set (turn := if (length (moveLog g) mod 2 =? 0)%nat then White else Black).
  set (g1 := set_check _ _ g).
  pose proof (getAllValidMoves_state turn g1) as Hst.
  destruct (getAllValidMoves turn g1) as [allMoves g2]. simpl in Hst.
  subst g2.
  destruct (isCheck g1 && _); [done|].
  destruct (negb (isCheck g1) && _); [done|].
  by destruct (_ || _).
Qed.

Lemma updateGameState_cache g :
  let g' := updateGameState g in
  isCheck g' = isKingInCheck g' (sideToMove g')
  ∧ checkKingPosition g' =
    (if isCheck g' then findKing g' (sideToMove g') else None).
Proof.
  intros g'. pose proof (updateGameState_same g) as Hsame. fold g' in Hsame.
  destruct (updateGameState_check g) as [Hchk Hpos]. fold g' in Hchk, Hpos.
  rewrite (sideToMove_sameGame _ _ Hsame), (isKingInCheck_sameGame _ _ _ Hsame),
    (findKing_sameGame _ _ _ Hsame), Hpos, Hchk.
  done.
Qed.

Lemma updateGameState_end g :
  let g' := updateGameState g in
  ((getAllValidMoves (sideToMove g') g').1 = [] →
   gameOver g' = true
   ∧ (if isCheck g'
      then isCheckmate g' = true ∧ winner g' = Some (opposite (sideToMove g'))
      else isStalemate g' = true))
  ∧ ((getAllValidMoves (sideToMove g') g').1 ≠ [] →
     isCheckmate g' = isCheckmate g ∧ isStalemate g' = isStalemate g
     ∧ winner g' = winner g).
Proof.
  intros g'. pose proof (updateGameState_same g) as Hsame. fold g' in Hsame.
  rewrite (sideToMove_sameGame _ _ Hsame),
    (getAllValidMoves_sameGame _ _ _ Hsame).
  subst g'. clear Hsame.
  unfold updateGameState, sideToMove.
  set (turn := if (length (moveLog g) mod 2 =? 0)%nat then White else Black).
  set (g1 := set_check _ _ g).
  assert (sameGame g g1) as Hsame1 by (by repeat split).
  pose proof (getAllValidMoves_sameGame turn _ _ Hsame1) as Hm.
  pose proof (getAllValidMoves_state turn g1) as Hst.
  destruct (getAllValidMoves turn g1) as [allMoves g2]. simpl in Hst, Hm.
  subst g2. rewrite <- Hm. clear Hm.
  destruct allMoves as [|m ms]; cbn [length Nat.ltb Nat.leb negb andb].
  - rewrite !andb_true_r. split; [intros _|done].
    destruct (isCheck g1) eqn:Hchk; cbn [negb].
    + simpl. simpl in Hchk. by rewrite Hchk.
    + simpl. simpl in Hchk. by rewrite Hchk.
  - rewrite !andb_false_r. split; [done|intros _].
    by destruct (_ || _).
Qed.

Lemma move_updates fromP toP promo r g g' :
  move fromP toP promo g = Some (Some r, g') →
  ∃ g0, status g0 = status g ∧ g' = updateGameState g0.
Proof.
  unfold move. destruct (lookupCell _ _ _) as [piece'|]; simpl; [|done].
  destruct (eqs piece' "." || _); [done|].
  unfold newSet. cbv zeta. intros [= _ <-]. eexists; split; [|done].
  change (status (set_redoStack ?l ?g)) with (status g).
  change (status (set_moveLog ?l ?g)) with (status g).
  change (status (set_lastMove ?l ?g)) with (status g).
  peel status status_ignoresBoard status_ignoresHeap.
  repeat case_match; peel status status_ignoresBoard status_ignoresHeap;
    reflexivity.
Qed.

Lemma constructor_updates fen g :
  constructor fen = Some g →
  ∃ g0, status g0 = (false, false, false, false, None)
        ∧ moveLog g0 = [] ∧ g = updateGameState g0.
Proof.
  unfold constructor. cbv zeta.
  destruct (JsString.split " " fen !! 2%nat) as [castling|]; [|done].
  simpl. intros [= <-].
  match goal with |- context [updateGameState ?x] => exists x end.
  by repeat split.
Qed.

Lemma statusCoherent_status g g' :
  status g' = status g → statusCoherent g → statusCoherent g'.
Proof.
  unfold status, statusCoherent. intros [= -> -> -> -> ->]. done.
Qed.

Lemma updateGameState_coherent g :
  statusCoherent g → statusCoherent (updateGameState g).
Proof.
  unfold updateGameState.
  set (turn := if (length (moveLog g) mod 2 =? 0)%nat then White else Black).
  set (g1 := set_check _ _ g).
  pose proof (getAllValidMoves_state turn g1) as Hst.
  destruct (getAllValidMoves turn g1) as [allMoves g2]. simpl in Hst.
  subst g2. unfold statusCoherent.
  destruct (isCheck g1 && _);
    [|destruct (negb (isCheck g1) && _);
      [|match goal with |- context [if ?c then set_draw _ else _] =>
          destruct c end]];
    subst g1;
    cbn [gameOver isCheckmate isStalemate isDraw winner set_checkmate
         set_stalemate set_draw set_check];
    intros [Hgo Hw]; rewrite ?orb_true_r; cbn [orb].
  all: split; [first [done | exact Hgo]
              |first [exact Hw | split; [done|congruence]]].
Qed.

Lemma step_coherent g g' : step g g' → statusCoherent g → statusCoherent g'.
Proof.
  destruct 1 as [fromP toP promo r g2 Hmove| |]; intros Hco.
  - destruct (move_status _ _ _ _ _ _ Hmove) as [Heq|(g0 & Heq & ->)].
    + by apply (statusCoherent_status g).
    + apply updateGameState_coherent. by apply (statusCoherent_status g).
  - apply (statusCoherent_status g); [apply undo_status|done].
  - apply (statusCoherent_status g); [apply redo_status|done].
Qed.

(** X22.  In every state reached from a constructed game by moves, undos
    and redos the cached end-of-game fields agree with each other:
    [gameOver] is set exactly when one of [isCheckmate], [isStalemate] and
    [isDraw] is, and there is a winner exactly when [isCheckmate] is set. *)
Theorem end_of_game_fields_agree (fen : string) (g g' : ChessGame) :
  constructor fen = Some g → steps g g' → statusCoherent g'.
Proof.
  intros Hc Hsteps.
  assert (statusCoherent g) as Hco.
  { apply constructor_updates in Hc as (g0 & Hst & _ & ->).
    apply updateGameState_coherent. unfold statusCoherent.
    injection Hst as -> -> -> -> ->. done. }
  clear Hc. induction Hsteps as [|g g1 g2 Hstep _ IH]; [done|].
  apply IH. by apply (step_coherent g).
Qed.

Lemma end_of_game_fields_agree_witness :
  constructor startFen = Some initialGame
  ∧ steps initialGame matedGame
  ∧ isCheckmate matedGame = true
  ∧ winner matedGame = Some Black
  ∧ statusCoherent matedGame
  ∧ gameOver matedGame = true.
Proof.
  assert (constructor startFen = Some initialGame) as Hc
    by (vm_compute; reflexivity).
  assert (∀ fromP toP g r g',
            move fromP toP None g = Some (r, g') → steps g' matedGame →
            steps g matedGame) as Hmore.
  { intros fromP toP g r g' Hm Hs.
    exact (steps_more g g' matedGame (step_move g fromP toP None r g' Hm)
             Hs). }
  assert (steps initialGame matedGame) as Hsteps.
  { set (m1 := move (sq 6 5) (sq 5 5) None initialGame).
    assert (m1 = Some (Some (mkResult true false), stateAfter m1)) as H1
      by (vm_compute; reflexivity).
    set (m2 := move (sq 1 4) (sq 3 4) None (stateAfter m1)).
    assert (m2 = Some (Some (mkResult true false), stateAfter m2)) as H2
      by (vm_compute; reflexivity).
    set (m3 := move (sq 6 6) (sq 4 6) None (stateAfter m2)).
    assert (m3 = Some (Some (mkResult true false), foolsMateGame)) as H3
      by (vm_compute; reflexivity).
    assert (move (sq 0 3) (sq 4 7) None foolsMateGame
            = Some (Some (mkResult true false), matedGame)) as H4
      by (vm_compute; reflexivity).
    apply (Hmore (sq 6 5) (sq 5 5) initialGame _ (stateAfter m1) H1).
    apply (Hmore (sq 1 4) (sq 3 4) (stateAfter m1) _ (stateAfter m2) H2).
    apply (Hmore (sq 6 6) (sq 4 6) (stateAfter m2) _ foolsMateGame H3).
    apply (Hmore (sq 0 3) (sq 4 7) foolsMateGame _ matedGame H4).
    apply steps_refl. }
  assert (isCheckmate matedGame = true) as Hmate
    by (vm_compute; reflexivity).
  pose proof (end_of_game_fields_agree startFen initialGame matedGame Hc
                Hsteps) as Hco.
  split; [exact Hc|]. split; [exact Hsteps|]. split; [exact Hmate|].
  split; [vm_compute; reflexivity|]. split; [exact Hco|].
  destruct Hco as [Hgo _]. rewrite Hgo, Hmate. reflexivity.
Defined.

(** X23.  After a successful move, and after construction, the cached
    check flag is the check test on the resulting position for the side
    to move, and the cached king square is that side's king when the flag
    is set and null otherwise. *)
Theorem check_cache_is_current
    (fromP toP : Position) (promo : option string) (r : MoveResult)
    (g : ChessGame) (fen : string) (g' : ChessGame) :
  move fromP toP promo g = Some (Some r, g') ∨ constructor fen = Some g' →
  isCheck g' = isKingInCheck g' (sideToMove g')
  ∧ checkKingPosition g' =
    (if isCheck g' then findKing g' (sideToMove g') else None).
Proof.
  intros [Hmove|Hc].
  - apply move_updates in Hmove as (g0 & _ & ->). apply updateGameState_cache.
  - apply constructor_updates in Hc as (g0 & _ & _ & ->).
    apply updateGameState_cache.
Qed.

Lemma check_cache_is_current_witness :
  let after := move (sq 0 3) (sq 4 7) None foolsMateGame in
  after = Some (Some (mkResult true false), stateAfter after)
  ∧ isCheck (stateAfter after) = true
  ∧ checkKingPosition (stateAfter after) = Some (sq 7 4)
  ∧ isCheck (stateAfter after)
    = isKingInCheck (stateAfter after) (sideToMove (stateAfter after)).
Proof.
  intros after.
  assert (after = Some (Some (mkResult true false), stateAfter after))
    as Hafter by (vm_compute; reflexivity).
  split; [exact Hafter|].
  split; [vm_compute; reflexivity|].
  split; [vm_compute; reflexivity|].
  exact (proj1 (check_cache_is_current (sq 0 3) (sq 4 7) None
                  (mkResult true false) foolsMateGame startFen
                  (stateAfter after) (or_introl Hafter))).
Defined.

(** X24.  A successful move ends the game exactly when it leaves the side
    to move without a legal move: then [gameOver] is set, with
    [isCheckmate] and the mover as winner when that side is in check and
    [isStalemate] when it is not; when a legal move is left, [isCheckmate],
    [isStalemate] and [winner] are what they were before the move. *)
Theorem move_detects_mate_and_stalemate
    (fromP toP : Position) (promo : option string) (r : MoveResult)
    (g g' : ChessGame) :
  move fromP toP promo g = Some (Some r, g') →
  ((getAllValidMoves (sideToMove g') g').1 = [] →
   gameOver g' = true
   ∧ (if isCheck g'
      then isCheckmate g' = true ∧ winner g' = Some (opposite (sideToMove g'))
      else isStalemate g' = true))
  ∧ ((getAllValidMoves (sideToMove g') g').1 ≠ [] →
     isCheckmate g' = isCheckmate g ∧ isStalemate g' = isStalemate g
     ∧ winner g' = winner g).
Proof.
  intros Hmove. apply move_updates in Hmove as (g0 & Hst & ->).
  injection Hst as <- <- _ _ <-. apply updateGameState_end.
Qed.

Lemma move_detects_mate_and_stalemate_witness :
  let after := move (sq 0 3) (sq 4 7) None foolsMateGame in
  after = Some (Some (mkResult true false), stateAfter after)
  ∧ (getAllValidMoves (sideToMove (stateAfter after)) (stateAfter after)).1
    = []
  ∧ isCheck (stateAfter after) = true
  ∧ gameOver (stateAfter after) = true
  ∧ (if isCheck (stateAfter after)
     then isCheckmate (stateAfter after) = true
          ∧ winner (stateAfter after)
            = Some (opposite (sideToMove (stateAfter after)))
     else isStalemate (stateAfter after) = true).
Proof.
  intros after.
  assert (after = Some (Some (mkResult true false), stateAfter after))
    as Hafter by (vm_compute; reflexivity).
  assert ((getAllValidMoves (sideToMove (stateAfter after))
             (stateAfter after)).1 = []) as Hnone
    by (vm_compute; reflexivity).
  split; [exact Hafter|]. split; [exact Hnone|].
  split; [vm_compute; reflexivity|].
  exact (proj1 (move_detects_mate_and_stalemate (sq 0 3) (sq 4 7) None
                  (mkResult true false) foolsMateGame (stateAfter after)
                  Hafter) Hnone).
Defined.

(** ** The board and its FEN text *)

Lemma append_nil_l (b : string) : String.append "" b = b.
Proof. reflexivity. Qed.

Lemma append_cons x (a b : string) :
  String.append (String x a) b = String x (String.append a b).
Proof. reflexivity. Qed.

Ltac append_tac := rewrite ?append_nil_l, ?append_cons.

Lemma append_assoc (a b c : string) :
  String.append (String.append a b) c = String.append a (String.append b c).
Proof. induction a as [|x a IH]; append_tac; congruence. Qed.

Lemma append_empty_r (a : string) : String.append a "" = a.
Proof. induction a as [|x a IH]; append_tac; congruence. Qed.

Lemma existsChar_app p a b :
  JsString.existsChar p (String.append a b)
  = JsString.existsChar p a || JsString.existsChar p b.
Proof.
  induction a as [|x a IH]; append_tac; simpl; [done|].
  by rewrite IH, orb_assoc.
Qed.

Lemma existsChar_weaken (p q : ascii → bool) s :
  (∀ c, p c = false → q c = false) →
  JsString.existsChar p s = false → JsString.existsChar q s = false.
Proof.
  intros Hpq. induction s as [|x s IH]; simpl; [done|].
  intros [Hx Hs]%orb_false_elim. by rewrite (Hpq _ Hx), IH.
Qed.

Lemma sepChar_slash s :
  JsString.existsChar sepChar s = false →
  JsString.existsChar (λ c, Ascii.eqb c "/") s = false.
Proof.
  apply existsChar_weaken. unfold sepChar. by intros c [? ?]%orb_false_elim.
Qed.

Lemma sepChar_space s :
  JsString.existsChar sepChar s = false →
  JsString.existsChar (λ c, Ascii.eqb c " ") s = false.
Proof.
  apply existsChar_weaken. unfold sepChar. by intros c [? ?]%orb_false_elim.
Qed.

Lemma splitAcc_nosep sep cur s :
  JsString.existsChar (λ c, Ascii.eqb c sep) s = false →
  JsString.splitAcc sep cur s = [String.append cur s].
Proof.
  revert cur. induction s as [|x s IH]; intros cur; simpl.
  - by rewrite append_empty_r.
  - intros [Hx Hs]%orb_false_elim. rewrite Hx, IH by done.
    by rewrite append_assoc.
Qed.

Lemma splitAcc_sep sep cur s rest :
  JsString.existsChar (λ c, Ascii.eqb c sep) s = false →
  JsString.splitAcc sep cur (String.append s (String sep rest))
  = String.append cur s :: JsString.splitAcc sep "" rest.
Proof.
  revert cur. induction s as [|x s IH]; intros cur; append_tac; simpl.
  - intros _. by rewrite Ascii.eqb_refl, append_empty_r.
  - intros [Hx Hs]%orb_false_elim. rewrite Hx, IH by done.
    by rewrite append_assoc.
Qed.

Lemma fenOfRow_acc cells e fen :
  fenOfRow cells e fen = String.append fen (rowFen cells e).
Proof.
  unfold rowFen. revert e fen.
  induction cells as [|c rest IH]; intros e fen; cbn [fenOfRow].
  - destruct (0 <? e)%nat; append_tac; [done|].
    by rewrite append_empty_r.
  - destruct (eqs c "."); [apply IH|].
    rewrite IH. rewrite (IH 0%nat (String.append _ c)).
    destruct (0 <? e)%nat; append_tac; by rewrite ?append_assoc.
Qed.

Lemma fenRowToCells_app a b :
  fenRowToCells (String.append a b) = fenRowToCells a ++ fenRowToCells b.
Proof.
  induction a as [|c a IH]; append_tac; simpl; [done|].
  destruct (numberOfChar c); rewrite IH; [by rewrite app_assoc|done].
Qed.

Lemma digitString_cells e :
  (1 ≤ e ≤ 9)%nat →
  fenRowToCells (JsString.digitString e) = replicate e "."
  ∧ JsString.existsChar sepChar (JsString.digitString e) = false.
Proof.
  intros He.
  do 10 (destruct e as [|e]; [try lia; by vm_compute|]). lia.
Qed.

Lemma fenCell_cells c :
  fenCell c → c ≠ "." →
  fenRowToCells c = [c] ∧ JsString.existsChar sepChar c = false.
Proof.
  intros [->|(a & -> & Hd & Hs & Hsl)] Hne; [done|].
  simpl. unfold numberOfChar. rewrite Hd, Hs. split; [done|].
  unfold sepChar. rewrite orb_false_r. apply orb_false_intro.
  - by apply Ascii.eqb_neq.
  - apply Ascii.eqb_neq. intros ->. by vm_compute in Hs.
Qed.

Lemma replicate_snoc_cons {A} (x : A) e l :
  replicate (S e) x ++ l = replicate e x ++ x :: l.
Proof. induction e as [|e IH]; simpl in *; [done|]. by rewrite IH. Qed.

Lemma rowFen_cells cells e :
  Forall fenCell cells → (e + length cells ≤ 9)%nat →
  fenRowToCells (rowFen cells e) = replicate e "." ++ cells
  ∧ JsString.existsChar sepChar (rowFen cells e) = false.
Proof.
  unfold rowFen. intros Hall. revert e.
  induction Hall as [|c rest Hc Hrest IH]; intros e He; simpl in He;
    cbn [fenOfRow].
  - destruct (0 <? e)%nat eqn:E; append_tac.
    + apply Nat.ltb_lt in E. rewrite app_nil_r.
      apply digitString_cells. lia.
    + apply Nat.ltb_ge in E. by replace e with 0%nat by lia.
  - destruct (eqs c ".") eqn:Ec.
    + apply eqs_eq in Ec as ->.
      destruct (IH (S e)) as [H1 H2]; [lia|]. rewrite H1, H2.
      split; [apply replicate_snoc_cons|done].
    + assert (c ≠ ".") as Hne by (intros ->; by vm_compute in Ec).
      destruct (fenCell_cells c Hc Hne) as [Hc1 Hc2].
      destruct (IH 0%nat) as [H1 H2]; [lia|]. simpl in H1.
      rewrite fenOfRow_acc. unfold rowFen. rewrite !fenRowToCells_app, !existsChar_app.
      rewrite H1, H2, Hc1, Hc2.
      destruct (0 <? e)%nat eqn:E; append_tac.
      * apply Nat.ltb_lt in E.
        destruct (digitString_cells e) as [Hd1 Hd2]; [lia|].
        rewrite Hd1, Hd2. by rewrite <- app_assoc.
      * apply Nat.ltb_ge in E. by replace e with 0%nat by lia.
Qed.

Lemma foldl_rows (rowOf : Z → list string) :
  foldl (λ fen i,
      let fen1 := fenOfRow (rowOf i) 0 fen in
      if i <? 7 then String.append fen1 "/" else fen1) "" range8
  = foldr (λ i rest, String.append (rowFen (rowOf i) 0) (String "/" rest))
      (rowFen (rowOf 7) 0) [0; 1; 2; 3; 4; 5; 6].
Proof.
  unfold range8. cbn [foldl foldr]. cbv zeta.
  change (0 <? 7) with true. change (1 <? 7) with true.
  change (2 <? 7) with true. change (3 <? 7) with true.
  change (4 <? 7) with true. change (5 <? 7) with true.
  change (6 <? 7) with true. change (7 <? 7) with false.
  cbv iota.
  rewrite !fenOfRow_acc. append_tac.
  rewrite !append_assoc. append_tac. reflexivity.
Qed.

Lemma list8 {A} (l : list A) :
  length l = 8%nat → ∃ a b c d e f g h, l = [a; b; c; d; e; f; g; h].
Proof.
  intros Hl. do 9 (destruct l as [|? l]; try discriminate Hl).
  by repeat eexists.
Qed.

Lemma wf_board_rows b : wf_board b → b = map (rowCells b) range8.
Proof.
  intros [Hlen Hall].
  destruct (list8 b Hlen) as (r0 & r1 & r2 & r3 & r4 & r5 & r6 & r7 & ->).
  repeat match goal with
         | H : Forall _ (_ :: _) |- _ =>
             apply Forall_cons in H as [?%list8 H]
         end.
  repeat match goal with
         | H : ∃ _, _ |- _ => destruct H as [? H]
         end.
  subst. reflexivity.
Qed.

Lemma isFenCell_fenCell s : isFenCell s = true → fenCell s.
Proof.
  destruct s as [|c [|? ?]]; try done. simpl.
  intros [[Hd Hs]%andb_prop Hsl]%andb_prop. right. exists c.
  apply negb_true_iff in Hd, Hs, Hsl. by apply Ascii.eqb_neq in Hsl.
Qed.

Lemma isFenCell_board (b : Board) :
  forallb (forallb isFenCell) b = true → Forall (Forall fenCell) b.
Proof.
  intros Hb. apply Forall_forall. intros r Hr%list_elem_of_In.
  apply Forall_forall. intros x Hx%list_elem_of_In.
  rewrite forallb_forall in Hb. specialize (Hb _ Hr).
  rewrite forallb_forall in Hb. by apply isFenCell_fenCell, Hb.
Qed.

Lemma rowCells_fen (b : Board) (i : Z) :
  wf_board b → Forall (Forall fenCell) b → In i range8 →
  fenRowToCells (rowFen (rowCells b i) 0) = rowCells b i
  ∧ JsString.existsChar sepChar (rowFen (rowCells b i) 0) = false.
Proof.
  intros Hwf Hcells Hi. apply (rowFen_cells _ 0%nat).
  - rewrite (wf_board_rows _ Hwf) in Hcells.
    rewrite Forall_forall in Hcells. apply Hcells.
    apply list_elem_of_In, in_map_iff. by exists i.
  - unfold rowCells. rewrite length_map. simpl. lia.
Qed.

(** X25.  On a board of eight rows of eight cells, each the empty marker
    or one character that is not a digit, white space or the row
    separator, the FEN text of [boardToFen] is read back by [fenToBoard]
    as the same board. *)
Theorem fenToBoard_boardToFen (g : ChessGame) :
  wf_board (board g) → Forall (Forall fenCell) (board g) →
  fenToBoard (boardToFen g) = board g.
Proof.
  intros Hwf Hcells.
  assert (∀ i, In i range8 →
            fenRowToCells (rowFen (rowCells (board g) i) 0)
            = rowCells (board g) i
            ∧ JsString.existsChar sepChar (rowFen (rowCells (board g) i) 0)
              = false) as Hrow
    by (intros i; by apply rowCells_fen).
  assert (∀ i, In i range8 → In i range8) as Hin by done.
  unfold range8 in Hin at 1. cbn [In] in Hin.
  destruct (Hrow 0) as [H0 S0]; [apply Hin; tauto|].
  destruct (Hrow 1) as [H1 S1]; [apply Hin; tauto|].
  destruct (Hrow 2) as [H2 S2]; [apply Hin; tauto|].
  destruct (Hrow 3) as [H3 S3]; [apply Hin; tauto|].
  destruct (Hrow 4) as [H4 S4]; [apply Hin; tauto|].
  destruct (Hrow 5) as [H5 S5]; [apply Hin; tauto|].
  destruct (Hrow 6) as [H6 S6]; [apply Hin; tauto|].
  destruct (Hrow 7) as [H7 S7]; [apply Hin; tauto|].
  clear Hrow Hin.
  change (boardToFen g) with
    (default ""
       (head (JsString.split " "
          (foldl (λ fen i,
             let fen1 := fenOfRow (rowCells (board g) i) 0 fen in
             if i <? 7 then String.append fen1 "/" else fen1) "" range8)))).
  rewrite foldl_rows. cbn [foldr].
  unfold JsString.split at 1. rewrite splitAcc_nosep.
  2: { repeat (rewrite !existsChar_app; cbn [JsString.existsChar]).
       rewrite ?(sepChar_space _ S0), ?(sepChar_space _ S1),
         ?(sepChar_space _ S2), ?(sepChar_space _ S3), ?(sepChar_space _ S4),
         ?(sepChar_space _ S5), ?(sepChar_space _ S6), ?(sepChar_space _ S7).
       reflexivity. }
  cbn [head default]. unfold id. append_tac.
  unfold fenToBoard, JsString.split.
  rewrite !splitAcc_sep by (by apply sepChar_slash).
  rewrite splitAcc_nosep by (by apply sepChar_slash).
  append_tac. cbn [map]. rewrite H0, H1, H2, H3, H4, H5, H6, H7.
  transitivity (map (rowCells (board g)) range8); [reflexivity|].
  symmetry. by apply wf_board_rows.
Qed.

Lemma fenToBoard_boardToFen_witness :
  wf_board (board initialGame)
  ∧ Forall (Forall fenCell) (board initialGame)
  ∧ fenToBoard (boardToFen initialGame) = board initialGame.
Proof.
  assert (Forall (Forall fenCell) (board initialGame)) as Hcells
    by (apply isFenCell_board; vm_compute; reflexivity).
  split; [exact wf_board_initialGame|]. split; [exact Hcells|].
  exact (fenToBoard_boardToFen initialGame wf_board_initialGame Hcells).
Defined.

(** ** The scans of the board *)

Lemma In_range8 z : In z range8 ↔ 0 ≤ z < 8.
Proof. unfold range8. cbn [In]. lia. Qed.

Lemma isInBounds_iff r c : isInBounds r c = true ↔ 0 ≤ r < 8 ∧ 0 ≤ c < 8.
Proof.
  unfold isInBounds. rewrite !andb_true_iff, !Z.leb_le, !Z.ltb_lt. lia.
Qed.

Lemma In_squares p : In p squares ↔ isInBounds (row p) (col p) = true.
Proof.
  unfold squares. rewrite in_flat_map, isInBounds_iff. split.
  - intros (r & Hr & Hp). apply in_map_iff in Hp as (c & <- & Hc).
    apply In_range8 in Hr, Hc. done.
  - intros [Hr Hc]. destruct p as [r c]. exists r.
    split; [by apply In_range8|]. apply in_map_iff. exists c.
    split; [done|by apply In_range8].
Qed.

Lemma getPieces_spec g color x p :
  In (x, p) (getPieces g color)
  ↔ isInBounds (row p) (col p) = true
    ∧ x = cellAt (board g) (row p) (col p)
    ∧ x ≠ "."
    ∧ betweenAZ x = bool_decide (color = White).
Proof.
  unfold getPieces. rewrite in_flat_map. cbv zeta. split.
  - intros (q & Hq%In_squares & Hin).
    destruct (eqs (cellAt (board g) (row q) (col q)) ".") eqn:E;
      cbn [negb] in Hin; [done|].
    destruct (_ && _ || _) eqn:E2 in Hin; [|done].
    destruct Hin as [[= <- <-]|[]].
    split; [done|]. split; [done|]. split.
    + intros Heq. rewrite Heq in E. by vm_compute in E.
    + by destruct (bool_decide (color = White)), (betweenAZ _).
  - intros (Hp & -> & Hne & Hc). exists p. split; [by apply In_squares|].
    destruct (eqs (cellAt (board g) (row p) (col p)) ".") eqn:E.
    { by apply eqs_eq in E. }
    cbn [negb]. rewrite Hc.
    destruct (bool_decide (color = White)); cbn; by left.
Qed.

(** X26.  [findKing] returns a square of the board that holds the king of
    the colour asked for, and null only when no square of the board holds
    it; a side without a king is never found in check. *)
Theorem findKing_finds_the_king (g : ChessGame) (color : Color) :
  match findKing g color with
  | Some p =>
      isInBounds (row p) (col p) = true
      ∧ cellAt (board g) (row p) (col p) = kingLetter color
  | None =>
      (∀ r c, isInBounds r c = true →
              cellAt (board g) r c ≠ kingLetter color)
      ∧ isKingInCheck g color = false
  end.
Proof.
  unfold isKingInCheck. unfold findKing. fold (kingLetter color).
  destruct (find _ squares) as [p|] eqn:Hfind.
  - apply find_some in Hfind as [Hp%In_squares Hk%eqs_eq]. done.
  - split; [|done]. intros r c Hin Hk.
    pose proof (find_none _ _ Hfind (mkPos r c)) as Hno.
    cbn [row col] in Hno. rewrite Hk in Hno.
    assert (eqs (kingLetter color) (kingLetter color) = true) as Heq
      by (by apply eqs_eq).
    rewrite Heq in Hno. discriminate Hno. by apply In_squares.
Qed.

(** X27.  [getPieces] lists exactly the squares of the board that do not
    hold the empty marker, each with its cell, under white when the cell
    lies between A and Z and under black otherwise. *)
Theorem getPieces_lists_the_side
    (g : ChessGame) (color : Color) (x : string) (p : Position) :
  In (x, p) (getPieces g color)
  ↔ isInBounds (row p) (col p) = true
    ∧ x = cellAt (board g) (row p) (col p)
    ∧ x ≠ "."
    ∧ betweenAZ x = bool_decide (color = White).
Proof. apply getPieces_spec. Qed.

(** ** Material *)

Lemma In_insertSorted s x l : In s (insertSorted x l) ↔ s = x ∨ In s l.
Proof.
  induction l as [|y l IH]; simpl; [intuition|].
  destruct (JsString.le x y); simpl; [intuition|]. rewrite IH. intuition.
Qed.

Lemma In_sortStrings s l : In s (sortStrings l) ↔ In s l.
Proof.
  unfold sortStrings. induction l as [|y l IH]; simpl; [done|].
  rewrite In_insertSorted, IH. intuition.
Qed.

Lemma existsChar_join p s l :
  In s l → JsString.existsChar p s = true →
  JsString.existsChar p (join l) = true.
Proof.
  unfold join. induction l as [|y l IH]; simpl; [done|].
  intros [->|Hin] Hs; rewrite existsChar_app.
  - by rewrite Hs.
  - rewrite (IH Hin Hs). apply orb_true_r.
Qed.

(** X28.  A position with a pawn, a rook or a queen of either colour on a
    square of the board is never taken for insufficient material. *)
Theorem heavy_piece_is_sufficient_material (g : ChessGame) (r c : Z) :
  isInBounds r c = true →
  In (JsString.toLowerCase (cellAt (board g) r c)) ["p"; "r"; "q"] →
  isInsufficientMaterial g = false.
Proof.
  intros Hin Hheavy. set (x := cellAt (board g) r c) in *.
  assert (x ≠ ".") as Hne.
  { intros Hx. rewrite Hx in Hheavy. vm_compute in Hheavy.
    intuition discriminate. }
  assert (JsString.existsChar heavyChar (JsString.toLowerCase x) = true)
    as Hx.
  { cbn [In] in Hheavy. destruct Hheavy as [<-|[<-|[<-|[]]]]; reflexivity. }
  assert (In (x, mkPos r c) (getPieces g White ++ getPieces g Black)) as Hp.
  { apply in_or_app.
    destruct (betweenAZ x) eqn:Haz; [left|right]; by apply getPieces_spec. }
  unfold isInsufficientMaterial. cbv zeta.
  set (pieces := getPieces g White ++ getPieces g Black) in *.
  set (pieceChars := join _).
  assert (JsString.existsChar heavyChar pieceChars = true) as Hpc.
  { apply (existsChar_join _ (JsString.toLowerCase x)); [|done].
    apply In_sortStrings, in_map_iff. by exists (x, mkPos r c). }
  assert (∀ k, JsString.existsChar heavyChar k = false →
               eqs pieceChars k = false) as Hk.
  { intros k Hfalse. destruct (eqs pieceChars k) eqn:E; [|done].
    apply eqs_eq in E. rewrite E, Hfalse in Hpc. discriminate. }
  rewrite (Hk "k"), (Hk "kn"), (Hk "kkn"), (Hk "bk"), (Hk "bkk"),
    (Hk "bbkk") by reflexivity.
  reflexivity.
Qed.

Lemma heavy_piece_is_sufficient_material_witness :
  isInBounds 6 4 = true
  ∧ In (JsString.toLowerCase (cellAt (board initialGame) 6 4)) ["p"; "r"; "q"]
  ∧ isInsufficientMaterial initialGame = false.
Proof.
  assert (isInBounds 6 4 = true) as Hin by reflexivity.
  assert (In (JsString.toLowerCase (cellAt (board initialGame) 6 4))
            ["p"; "r"; "q"]) as Hp by (left; vm_compute; reflexivity).
  split; [exact Hin|]. split; [exact Hp|].
  exact (heavy_piece_is_sufficient_material initialGame 6 4 Hin Hp).
Defined.

(** ** What the commands accept and keep *)










